(** * portfolio3d: the per-frame simulation of [src/main.ts]

    A shallow embedding of the boat controller ([updateBoat]), the
    proximity bridge ([updateProximityUI], [showSpeech]) and the wake
    animator ([updateWake]), followed by the properties stated about
    them.

    Numbers.  TypeScript's [number] is read as a real number: [R] of the
    Standard Library, with [sqrt], [sin], [cos], [Rabs], [Rmin] and
    [Rmax] for [Math.sqrt]/[Math.hypot], [Math.sin], [Math.cos],
    [Math.abs], [Math.min] and [Math.max].  Overflow and NaN are outside
    the model.  Rounding is allowed for in the statements: where the
    real numbers give an exact length or sum that the doubles of the
    program only approximate, the property is stated up to [slack], and
    the decay of the speed under an open modal, whose behaviour near
    zero is a matter of rounding alone, is modelled a second time on
    IEEE 754 binary64 numbers ([Binary64]).  [Infinity] appears once in
    the source, as the initial [nearestDist]; it is the extra point
    [PInf] of [Dist].

    Module-level variables of the source ([boatSpeed], [boatHeading],
    [boat.position], [keys], [modalOpen], [activeIsland], [wakePool],
    [wakeTimer], the speech panel) are the fields of one record [World]
    that every function takes and returns.  The island registry is
    filled once at start-up and only read afterwards: it is a list that
    the functions take as an argument; [registry] is the list the source
    builds. *)

From Stdlib Require Import ZArith Floats.
From Stdlib Require Import Reals Lra Lia.
From stdpp Require Import base decidable list strings gmap.

Open Scope R_scope.

#[local] Set Warnings "-clear-no-such-hyp".

(** The comparisons of the source, as decidable propositions. *)
#[global] Instance R_eq_dec : EqDecision R := Req_dec_T.
#[global] Instance Rlt_decision (a b : R) : Decision (a < b) := Rlt_dec a b.
#[global] Instance Rgt_decision (a b : R) : Decision (a > b) := Rgt_dec a b.
#[global] Instance Rge_decision (a b : R) : Decision (a >= b) := Rge_dec a b.
#[global] Instance Rle_decision (a b : R) : Decision (a <= b) := Rle_dec a b.

(* ===================================================================== *)
(** * three.js: the few operations the simulation calls *)
(* ===================================================================== *)

Module THREE.

Record Vector3 : Type := mkVector3 { x : R; y : R; z : R }.

(** [v.length()] *)
Definition length (v : Vector3) : R :=
  sqrt (x v * x v + y v * y v + z v * z v).

(** [v.multiplyScalar(s)] *)
Definition multiplyScalar (v : Vector3) (s : R) : Vector3 :=
  mkVector3 (x v * s) (y v * s) (z v * s).

(** [v.divideScalar(s)] is [v.multiplyScalar(1 / s)]. *)
Definition divideScalar (v : Vector3) (s : R) : Vector3 :=
  multiplyScalar v (1 / s).

(** [v.normalize()] is [v.divideScalar(v.length() || 1)]: a vector of
    length 0 is divided by 1 and so stays the zero vector. *)
Definition normalize (v : Vector3) : Vector3 :=
  divideScalar v (if decide (length v = 0) then 1 else length v).

(** [v.addScaledVector(w, s)] *)
Definition addScaledVector (v w : Vector3) (s : R) : Vector3 :=
  mkVector3 (x v + x w * s) (y v + y w * s) (z v + z w * s).

(** [v.setScalar(s)] *)
Definition setScalar (s : R) : Vector3 := mkVector3 s s s.

(** [THREE.MathUtils.clamp(value, min, max)] is
    [Math.max(min, Math.min(max, value))]. *)
Definition clamp (value lo hi : R) : R := Rmax lo (Rmin hi value).

End THREE.

Import THREE.

(** [Math.hypot(a, b)] *)
Definition hypot (a b : R) : R := sqrt (a * a + b * b).

(* ===================================================================== *)
(** * Data model *)
(* ===================================================================== *)

(** The colour fields of a biome only feed materials and are left out. *)
Record Biome : Type := mkBiome {
  biome_id : string;
  name : string;
  description : string
}.

(** [meshes] and [swayTargets] are scene-graph handles; the functions
    below never read them. *)
Record Island : Type := mkIsland {
  id : string;
  biome : Biome;
  radius : R;
  position : Vector3
}.

(** The part of a wake particle's mesh that [updateWake] writes. *)
Record Mesh : Type := mkMesh {
  mesh_position : Vector3;
  visible : bool;
  scale : Vector3;
  opacity : R
}.

Record WakeSlot : Type := mkWakeSlot {
  mesh : Mesh;
  age : R;
  alive : bool
}.

(** The speech panel: whether its four DOM handles were found, and what
    [showSpeech] writes to them. *)
Record Speech : Type := mkSpeech {
  handles : bool;
  display : string;
  title : string;
  body : string
}.

Record World : Type := mkWorld {
  keys : gset string;
  boatSpeed : R;
  boatHeading : R;
  boat_position : Vector3;
  boat_rotation_y : R;
  modalOpen : bool;
  activeIsland : option Island;
  wakePool : list WakeSlot;
  wakeTimer : R;
  speech : Speech
}.

(** ** Constants *)

Definition waterSize : R := 240.
Definition maxSpeed : R := 12.
Definition acceleration : R := 12.
Definition turnRate : R := 1.8.
Definition damping : R := 0.96.
Definition boatRadius : R := 1.6.
Definition wakeCount : nat := 80.
Definition wakeLife : R := 1.8.

Definition tropical : Biome :=
  mkBiome "tropical" "Tropical Cay"
    "Warm sands, turquoise shallows, and palms swaying in a steady trade wind.".
Definition arctic : Biome :=
  mkBiome "arctic" "Arctic Shelf"
    "Frosted rock with snow caps and glassy blue water drifting with ice.".
Definition desert : Biome :=
  mkBiome "desert" "Dune Key"
    "Sun-bleached dunes and rocky outcrops with crisp blue edges.".

(** [biomes[0]], [biomes[1]], [biomes[2]] *)
Definition biomes : list Biome := [tropical; arctic; desert].

(** The four [createIsland] calls, in call order. *)
Definition registry : list Island :=
  [ mkIsland "tropical-0" tropical 7.5 (mkVector3 (-24) 0 (-6));
    mkIsland "desert-1" desert 6.5 (mkVector3 18 0 10);
    mkIsland "arctic-2" arctic 6 (mkVector3 (-6) 0 24);
    mkIsland "tropical-3" tropical 8 (mkVector3 20 0 (-20)) ].

(* ===================================================================== *)
(** * Boat controller *)
(* ===================================================================== *)

(** [keys.has(k)] *)
Definition has (ks : gset string) (k : string) : bool := bool_decide (k ∈ ks).

(** [(a || b ? 1 : 0) - (c || d ? 1 : 0)] *)
Definition axis (ks : gset string) (p1 p2 n1 n2 : string) : R :=
  (if has ks p1 || has ks p2 then 1 else 0) -
  (if has ks n1 || has ks n2 then 1 else 0).

Definition forward (ks : gset string) : R := axis ks "w" "arrowup" "s" "arrowdown".
Definition turn (ks : gset string) : R := axis ks "a" "arrowleft" "d" "arrowright".
Definition boosting (ks : gset string) : bool := has ks "shift".

(** [boosting ? 1.4 : 1] *)
Definition boost (ks : gset string) : R := if boosting ks then 1.4 else 1.

(** Lines 635-645: the speed after the input has been read. *)
Definition inputSpeed (ks : gset string) (delta speed : R) : R :=
  if decide (forward ks = 0) then
    let s := speed * damping in
    if decide (Rabs s < 0.05) then 0 else s
  else
    clamp (speed + forward ks * acceleration * delta * boost ks)
          (- maxSpeed * 0.5) (maxSpeed * boost ks).

(** Lines 647-649. *)
Definition inputHeading (ks : gset string) (delta speed heading : R) : R :=
  if decide (turn ks = 0) then heading
  else heading + turn ks * turnRate * delta * (1 + Rabs speed * 0.05).

(** Lines 651-657: [boat.position.clone().addScaledVector(moveDir, boatSpeed * delta)]. *)
Definition tentative (pos : Vector3) (heading speed delta : R) : Vector3 :=
  addScaledVector pos (mkVector3 (sin heading) 0 (cos heading)) (speed * delta).

(** The body of the [islands.forEach] callback of lines 660-670, on the
    pair of the two variables it assigns: [nextPos] and [boatSpeed]. *)
Definition collide (ps : Vector3 * R) (island : Island) : Vector3 * R :=
  let nextPos := ps.1 in
  let dx := x nextPos - x (position island) in
  let dz := z nextPos - z (position island) in
  let dist := hypot dx dz in
  let minDist := radius island + boatRadius in
  if decide (dist < minDist) then
    let n := normalize (mkVector3 dx 0 dz) in
    (addScaledVector (position island) n minDist, 0)
  else ps.

(** [islands.forEach(...)]: the callback, island after island. *)
Definition collisions (islands : list Island) (ps : Vector3 * R) : Vector3 * R :=
  foldl collide ps islands.

Definition bounds : R := waterSize * 0.45.

(** Lines 674-675. *)
Definition clampBounds (p : Vector3) : Vector3 :=
  mkVector3 (clamp (x p) (- bounds) bounds) (y p) (clamp (z p) (- bounds) bounds).

(** [updateBoat(delta)]; [elapsed] is what [clock.getElapsedTime()]
    returns during the call. *)
Definition updateBoat (islands : list Island) (delta elapsed : R) (w : World) : World :=
  if modalOpen w then
    mkWorld (keys w) (boatSpeed w * 0.9) (boatHeading w) (boat_position w)
            (boat_rotation_y w) (modalOpen w) (activeIsland w)
            (wakePool w) (wakeTimer w) (speech w)
  else
    let speed1 := inputSpeed (keys w) delta (boatSpeed w) in
    let heading := inputHeading (keys w) delta speed1 (boatHeading w) in
    let nextPos := tentative (boat_position w) heading speed1 delta in
    let '(nextPos', speed2) := collisions islands (nextPos, speed1) in
    let clamped := clampBounds nextPos' in
    let committed :=
      mkVector3 (x clamped) (0.35 + sin (elapsed * 2) * 0.08) (z clamped) in
    mkWorld (keys w) speed2 heading committed (heading + PI)
            (modalOpen w) (activeIsland w) (wakePool w) (wakeTimer w) (speech w).

(* ===================================================================== *)
(** * Proximity bridge *)
(* ===================================================================== *)

(** The values of [nearestDist]: a distance, or its initial [Infinity]. *)
Inductive Dist : Type :=
  | Fin (d : R)
  | PInf.

(** [d < nearestDist] *)
Definition below (d : R) (nearestDist : Dist) : Prop :=
  match nearestDist with
  | Fin e => d < e
  | PInf => True
  end.

(** [nearestDist < r] *)
Definition within (nearestDist : Dist) (r : R) : Prop :=
  match nearestDist with
  | Fin e => e < r
  | PInf => False
  end.

#[global] Instance below_dec d n : Decision (below d n).
Proof. destruct n; simpl; apply _. Defined.

#[global] Instance within_dec n r : Decision (within n r).
Proof. destruct n; simpl; apply _. Defined.

(** [showSpeech(island)] *)
Definition showSpeech (island : option Island) (s : Speech) : Speech :=
  if negb (handles s) then s
  else match island with
       | None => mkSpeech (handles s) "none" (title s) (body s)
       | Some i =>
           mkSpeech (handles s) "flex" (name (biome i))
                    "Press E or click Dock to visit."
       end.

(** Horizontal distance from a point to an island's centre. *)
Definition centreDist (p : Vector3) (island : Island) : R :=
  hypot (x p - x (position island)) (z p - z (position island)).

(** The body of the scan's [forEach] callback (lines 740-749), on the
    pair [(nearest, nearestDist)]. *)
Definition nearer (p : Vector3) (acc : option Island * Dist) (island : Island)
  : option Island * Dist :=
  let d := centreDist p island in
  if decide (below d acc.2) then (Some island, Fin d) else acc.

Definition scan (islands : list Island) (p : Vector3) : option Island * Dist :=
  foldl (nearer p) (None, PInf) islands.

Definition setProximity (w : World) (a : option Island) : World :=
  mkWorld (keys w) (boatSpeed w) (boatHeading w) (boat_position w)
          (boat_rotation_y w) (modalOpen w) a (wakePool w) (wakeTimer w)
          (showSpeech a (speech w)).

(** [updateProximityUI()] *)
Definition updateProximityUI (islands : list Island) (w : World) : World :=
  let '(nearest, nearestDist) := scan islands (boat_position w) in
  let reachDistance := from_option radius 0 nearest + 4 in
  match nearest with
  | Some island =>
      if decide (within nearestDist reachDistance)
      then setProximity w (Some island)
      else setProximity w None
  | None => setProximity w None
  end.

(* ===================================================================== *)
(** * Wake particles *)
(* ===================================================================== *)

(** Lines 454-460: what claiming a slot writes to it.  The material's
    opacity is not written here. *)
Definition emit (w : World) (slot : WakeSlot) : WakeSlot :=
  let dir := mkVector3 (sin (boatHeading w)) 0 (cos (boatHeading w)) in
  let p := addScaledVector (boat_position w) dir (-1.2) in
  mkWakeSlot
    (mkMesh (mkVector3 (x p) 0.02 (z p)) true (setScalar 0.6) (opacity (mesh slot)))
    0 true.

(** Lines 450-463: the timer and the emission.  [wakePool.find] returns
    the first slot that is not alive, and the writes go to that slot of
    the pool. *)
Definition emission (delta : R) (w : World) : list WakeSlot * R :=
  let timer := wakeTimer w + delta in
  if bool_decide (boatSpeed w > 1) && bool_decide (timer > 0.08) then
    (match list_find (λ p, alive p = false) (wakePool w) with
     | Some (i, slot) => <[i := emit w slot]> (wakePool w)
     | None => wakePool w
     end, 0)
  else (wakePool w, timer).

(** The body of the [wakePool.forEach] callback of lines 465-478. *)
Definition ageSlot (delta : R) (p : WakeSlot) : WakeSlot :=
  if negb (alive p) then p
  else
    let age' := age p + delta in
    let t := age' / wakeLife in
    let m := mesh p in
    if decide (t >= 1) then
      mkWakeSlot (mkMesh (mesh_position m) false (scale m) (opacity m)) age' false
    else
      let fade := 1 - t in
      let s := 0.6 + t * 1.4 in
      mkWakeSlot (mkMesh (mesh_position m) (visible m) (setScalar s) (0.45 * fade))
                 age' (alive p).

(** [updateWake(delta)] *)
Definition updateWake (delta : R) (w : World) : World :=
  let '(pool, timer) := emission delta w in
  mkWorld (keys w) (boatSpeed w) (boatHeading w) (boat_position w)
          (boat_rotation_y w) (modalOpen w) (activeIsland w)
          (ageSlot delta <$> pool) timer (speech w).

(* ===================================================================== *)
(** * Start-up *)
(* ===================================================================== *)

(** What [initWake] pushes, [wakeCount] times: a hidden mesh at the
    origin with unit scale and the opacity of [wakeMaterial], age 0, not
    alive. *)
Definition freshSlot : WakeSlot :=
  mkWakeSlot (mkMesh (mkVector3 0 0 0) false (mkVector3 1 1 1) 0.5) 0 false.

(** [initWake()] *)
Definition initWake (w : World) : World :=
  mkWorld (keys w) (boatSpeed w) (boatHeading w) (boat_position w)
          (boat_rotation_y w) (modalOpen w) (activeIsland w)
          (wakePool w ++ replicate wakeCount freshSlot) (wakeTimer w) (speech w).

(** The module-level variables after the top-level code has run, for a
    page whose speech panel is [sp]. *)
Definition boot (sp : Speech) : World :=
  initWake (mkWorld ∅ 0 PI (mkVector3 0 0.35 0) PI false None [] 0 sp).

(* ===================================================================== *)
(** * Modal and input handlers *)
(* ===================================================================== *)

(** The modal: which of its DOM handles were found, and what
    [openModal] and [closeModal] write to them. *)
Record Modal : Type := mkModal {
  modalBackdrop : bool;
  modalTitle : bool;
  modalBody : bool;
  backdrop_display : string;
  modal_title_text : string;
  modal_body_text : string
}.

Record Page : Type := mkPage {
  world : World;
  modal : Modal
}.

Definition setModalOpen (w : World) (b : bool) : World :=
  mkWorld (keys w) (boatSpeed w) (boatHeading w) (boat_position w)
          (boat_rotation_y w) b (activeIsland w) (wakePool w) (wakeTimer w)
          (speech w).

Definition setKeys (w : World) (ks : gset string) : World :=
  mkWorld ks (boatSpeed w) (boatHeading w) (boat_position w)
          (boat_rotation_y w) (modalOpen w) (activeIsland w) (wakePool w)
          (wakeTimer w) (speech w).

(** [openModal(island)] *)
Definition openModal (island : Island) (pg : Page) : Page :=
  let m := modal pg in
  if negb (modalBackdrop m) || negb (modalTitle m) || negb (modalBody m) then pg
  else
    mkPage (setModalOpen (world pg) true)
           (mkModal (modalBackdrop m) (modalTitle m) (modalBody m) "flex"
                    (name (biome island)) (description (biome island))).

(** [closeModal()] *)
Definition closeModal (pg : Page) : Page :=
  let m := modal pg in
  if negb (modalBackdrop m) then pg
  else
    mkPage (setModalOpen (world pg) false)
           (mkModal (modalBackdrop m) (modalTitle m) (modalBody m) "none"
                    (modal_title_text m) (modal_body_text m)).

Section Handlers.

(** [String.prototype.toLowerCase], a built-in the handlers call. *)
Variable toLowerCase : string -> string.

(** The [keydown] listener, on [e.key]. *)
Definition keydown (key : string) (pg : Page) : Page :=
  if bool_decide (key = "Escape") && modalOpen (world pg) then closeModal pg
  else
    let pg1 := mkPage (setKeys (world pg) ({[toLowerCase key]} ∪ keys (world pg)))
                      (modal pg) in
    if bool_decide (key = "e") || bool_decide (key = "Enter") then
      match activeIsland (world pg1) with
      | Some island => openModal island pg1
      | None => pg1
      end
    else pg1.

(** The [keyup] listener. *)
Definition keyup (key : string) (pg : Page) : Page :=
  mkPage (setKeys (world pg) (keys (world pg) ∖ {[toLowerCase key]})) (modal pg).

End Handlers.

(** [speechOpen.onclick] *)
Definition clickDock (pg : Page) : Page :=
  match activeIsland (world pg) with
  | Some island => openModal island pg
  | None => pg
  end.

(* ===================================================================== *)
(** * Frame driver *)
(* ===================================================================== *)

(** [animate()], on the variables of [World]: [delta] is what
    [clock.getDelta()] returns and [elapsed] is [clock.elapsedTime].
    The water, wind, bird and sway animators and the renderer write to
    objects of their own and to none of these variables. *)
Definition animate (islands : list Island) (delta elapsed : R) (w : World) : World :=
  updateProximityUI islands (updateWake delta (updateBoat islands delta elapsed w)).

(** What can happen to the page: a key event, a click on the Dock
    button, on the modal's close button or on the backdrop, or a frame. *)
Inductive Event : Type :=
  | KeyDown (key : string)
  | KeyUp (key : string)
  | ClickDock
  | ClickClose
  | ClickBackdrop
  | Frame (delta elapsed : R).

Definition handle (toLowerCase : string -> string) (islands : list Island)
    (pg : Page) (e : Event) : Page :=
  match e with
  | KeyDown key => keydown toLowerCase key pg
  | KeyUp key => keyup toLowerCase key pg
  | ClickDock => clickDock pg
  | ClickClose => closeModal pg
  | ClickBackdrop => closeModal pg
  | Frame delta elapsed => mkPage (animate islands delta elapsed (world pg)) (modal pg)
  end.

Definition run (toLowerCase : string -> string) (islands : list Island)
    (events : list Event) (pg : Page) : Page :=
  foldl (handle toLowerCase islands) pg events.

(* ===================================================================== *)
(** * The minimal variant *)
(* ===================================================================== *)

Module Minimal.

(** The variant without islands to collide with, modal or wake: its
    [updateBoat] reads the input as above, moves the boat, and clamps
    the committed position to its own, smaller water. *)
Definition waterSize : R := 120.

Definition bounds : R := waterSize * 0.45.

(** [updateBoat(delta)] of the minimal variant. *)
Definition updateBoat (delta elapsed : R) (w : World) : World :=
  let speed := inputSpeed (keys w) delta (boatSpeed w) in
  let heading := inputHeading (keys w) delta speed (boatHeading w) in
  let moved := tentative (boat_position w) heading speed delta in
  let committed :=
    mkVector3 (clamp (x moved) (- bounds) bounds)
              (0.35 + sin (elapsed * 2) * 0.08)
              (clamp (z moved) (- bounds) bounds) in
  mkWorld (keys w) speed heading committed (heading + PI)
          (modalOpen w) (activeIsland w) (wakePool w) (wakeTimer w) (speech w).

Definition ticks (frames : list (R * R)) (w : World) : World :=
  foldl (λ w f, updateBoat f.1 f.2 w) w frames.

End Minimal.

(* ===================================================================== *)
(** * The modal-open branch on doubles *)
(* ===================================================================== *)

Module Binary64.

(** The literal [0.9] of line 623: the double nearest to 9/10. *)
Definition point9 : float := 0x1.ccccccccccccdp-1%float.

(** Lines 621-625 with [number] read as an IEEE 754 binary64 number:
    [if (modalOpen) { boatSpeed *= 0.9; return; }] writes nothing but
    the speed, and the speed it writes is the rounded product. *)
Definition modalTick (boatSpeed : float) : float := (boatSpeed * point9)%float.

(** [n] calls of [updateBoat] with the modal open. *)
Definition modalTicks (n : nat) (boatSpeed : float) : float :=
  Nat.iter n modalTick boatSpeed.

(** 5 * 2^-1074, about 2.5e-323: five times the smallest positive
    double. *)
Definition stall : float := 0x5p-1074%float.

End Binary64.

(* ===================================================================== *)
(** * Ambient animators *)
(* ===================================================================== *)

Module Wind.

(** [windPositions] is read three entries at a time: a list of points.
    [Math.random()] is the next value of a stream [rnd]; the number of
    values drawn so far is threaded through the loops. *)
Definition windCount : nat := 80.

(** [new THREE.Vector3(0.6, 0, -0.4).normalize()] *)
Definition dir : Vector3 := normalize (mkVector3 0.6 0 (-0.4)).

(** The start-up loop that fills [windPositions], [count] points from
    the [n]-th random value on. *)
Fixpoint initWind (rnd : nat -> R) (count : nat) (n : nat) : list Vector3 * nat :=
  match count with
  | O => ([], n)
  | S count' =>
      let p := mkVector3 ((rnd n - 0.5) * waterSize * 0.9)
                         (1 + rnd (S n) * 1.2)
                         ((rnd (S (S n)) - 0.5) * waterSize * 0.9) in
      let '(rest, m) := initWind rnd count' (S (S (S n))) in
      (p :: rest, m)
  end.

(** One iteration of the loop of [animateWind], for the point of index
    [i]: the point after it, and how many random values it drew. *)
Definition step (rnd : nat -> R) (delta elapsed : R) (i n : nat) (p : Vector3)
  : Vector3 * nat :=
  let x1 := x p + x dir * delta * 12 in
  let y1 := y p + sin (elapsed * 3 + INR i) * 0.004 in
  let z1 := z p + z dir * delta * 12 in
  if bool_decide (Rabs x1 > waterSize * 0.5) || bool_decide (Rabs z1 > waterSize * 0.5)
  then (mkVector3 ((rnd n - 0.5) * waterSize * 0.3)
                  (1 + rnd (S n) * 1.2)
                  ((rnd (S (S n)) - 0.5) * waterSize * 0.3),
        S (S (S n)))
  else (mkVector3 x1 y1 z1, n).

(** [animateWind(delta)], from index [i] on; [elapsed] is
    [clock.elapsedTime]. *)
Fixpoint animateWindFrom (rnd : nat -> R) (delta elapsed : R) (i n : nat)
    (ps : list Vector3) : list Vector3 * nat :=
  match ps with
  | [] => ([], n)
  | p :: rest =>
      let '(p', n1) := step rnd delta elapsed i n p in
      let '(rest', n2) := animateWindFrom rnd delta elapsed (S i) n1 rest in
      (p' :: rest', n2)
  end.

Definition animateWind (rnd : nat -> R) (delta elapsed : R) (n : nat)
    (ps : list Vector3) : list Vector3 * nat :=
  animateWindFrom rnd delta elapsed 0 n ps.

(** A point over the water plane, edges included. *)
Definition overWater (p : Vector3) : Prop :=
  Rabs (x p) <= waterSize * 0.5 /\ Rabs (z p) <= waterSize * 0.5.

End Wind.

Module Birds.

(** The bird's parameters and the position of its mesh; the orientation
    that [animateBirds] also sets is a quaternion of the scene graph and
    is left out. *)
Record Bird : Type := mkBird {
  mesh_position : Vector3;
  orbitR : R;
  speed : R;
  height : R;
  phase : R;
  wobble : R
}.

(** The body of the [birds.forEach] callback, as far as the position
    goes. *)
Definition fly (time : R) (i : nat) (bird : Bird) : Bird :=
  let angle := time * speed bird + phase bird in
  let px := cos angle * orbitR bird in
  let pz := sin angle * orbitR bird in
  let py := height bird + sin (angle * 1.3 + INR i) * 0.6 in
  mkBird (mkVector3 px py pz) (orbitR bird) (speed bird) (height bird)
         (phase bird) (wobble bird).

(** [animateBirds(time)] *)
Definition animateBirds (time : R) (birds : list Bird) : list Bird :=
  imap (fly time) birds.

End Birds.

Module Tint.

(** A [THREE.Color], by its three channels. *)
Record Color : Type := mkColor { r : R; g : R; b : R }.

(** [c.lerp(target, alpha)] *)
Definition lerp (c target : Color) (alpha : R) : Color :=
  mkColor (r c + (r target - r c) * alpha)
          (g c + (g target - g c) * alpha)
          (b c + (b target - b c) * alpha).

(** [THREE.MathUtils.smoothstep(x, min, max)] *)
Definition smoothstep (v lo hi : R) : R :=
  if decide (v <= lo) then 0
  else if decide (v >= hi) then 1
  else let t := (v - lo) / (hi - lo) in t * t * (3 - 2 * t).

Section Vertices.

(** [new THREE.Color(island.biome.waterTint)]: the colour fields of a
    biome are not in [Biome], so the tint of an island is given. *)
Variable tintOf : Island -> Color.

(** The body of the [islands.forEach] callback of [tintWaterVertices],
    for the vertex at [(vx, vz)], on the colour [base]. *)
Definition blend (vx vz : R) (base : Color) (island : Island) : Color :=
  let d := hypot (vx - x (position island)) (vz - z (position island)) in
  let influence := radius island * 3.0 in
  if decide (d < influence) then
    let w := smoothstep (1 - d / influence) 0 1 in
    lerp base (tintOf island) (w * 0.75)
  else base.

(** The colour [tintWaterVertices] gives the vertex at [(vx, vz)],
    starting from a clone of [baseWaterColor]. *)
Definition vertexColor (islands : list Island) (baseWaterColor : Color) (vx vz : R)
  : Color :=
  foldl (blend vx vz) baseWaterColor islands.

(** The position attribute of
    [new THREE.PlaneGeometry(waterSize, waterSize, 240, 240)]: 241 rows
    of 241 vertices, row after row, each vertex
    [(ix * segment_width - width / 2, - (iy * segment_height - height / 2), 0)].
    The plane lies in the xy plane of the geometry; the mesh is turned
    flat by its rotation, which the attribute does not see. *)
Definition waterSegments : nat := 240.
Definition count : nat := (waterSegments + 1) * (waterSegments + 1).

Definition getX (i : nat) : R :=
  INR (i mod (waterSegments + 1)) * (waterSize / INR waterSegments) - waterSize / 2.
Definition getY (i : nat) : R :=
  - (INR (i / (waterSegments + 1)) * (waterSize / INR waterSegments) - waterSize / 2).
Definition getZ (i : nat) : R := 0.

(** [tintWaterVertices()]: the colours written to the [color]
    attribute, one per vertex, in the order of the vertices. *)
Definition tintWaterVertices (islands : list Island) (baseWaterColor : Color)
  : list Color :=
  (λ i, vertexColor islands baseWaterColor (getX i) (getZ i)) <$> seq 0 count.

End Vertices.

(** Every channel of [c] lies between [lo] and [hi]. *)
Definition channelsIn (lo hi : R) (c : Color) : Prop :=
  lo <= r c <= hi /\ lo <= g c <= hi /\ lo <= b c <= hi.

End Tint.

(* ===================================================================== *)
(** * Vocabulary of the properties *)
(* ===================================================================== *)

(** The allowance for rounding.  Over the real numbers the push of a
    collision lands on the rim of the exclusion disc exactly, a unit
    vector has length exactly 1 and sums telescope; the doubles of the
    program are within a few units in the last place of that.  The
    properties about such lengths and sums are stated up to [slack]. *)
Definition slack : R := 1 / 1000000000.

(** Several ticks of [updateBoat], one [(delta, elapsed)] pair per tick. *)
Definition ticks (islands : list Island) (frames : list (R * R)) (w : World) : World :=
  foldl (λ w f, updateBoat islands f.1 f.2 w) w frames.

(** [island.radius + boatRadius] *)
Definition minDist (island : Island) : R := radius island + boatRadius.

(** Where the callback puts a position that is too close to [island]. *)
Definition pushed (p : Vector3) (island : Island) : Vector3 :=
  addScaledVector (position island)
    (normalize (mkVector3 (x p - x (position island)) 0 (z p - z (position island))))
    (minDist island).

(** The exclusion discs of two islands do not overlap. *)
Definition apart (i j : Island) : Prop :=
  minDist i + minDist j
    <= hypot (x (position i) - x (position j)) (z (position i) - z (position j)).

(** No two exclusion discs of the registry overlap. *)
Fixpoint separated (islands : list Island) : Prop :=
  match islands with
  | [] => True
  | i :: rest => Forall (apart i) rest /\ separated rest
  end.

(** The exclusion disc of an island lies inside the world square. *)
Definition inWorld (i : Island) : Prop :=
  Rabs (x (position i)) + minDist i <= bounds /\
  Rabs (z (position i)) + minDist i <= bounds.

(** [i] is the earliest island of the registry at the minimum distance
    from [p]: every island before it is strictly farther, no island
    after it is nearer. *)
Definition first_nearest (islands : list Island) (p : Vector3) (i : Island) : Prop :=
  exists before after,
    islands = before ++ i :: after /\
    Forall (λ j, centreDist p i < centreDist p j) before /\
    Forall (λ j, centreDist p i <= centreDist p j) after.

(* ===================================================================== *)
(** * Scenarios *)
(* ===================================================================== *)

(** A boat at rest at the origin with no key held and the modal closed:
    the state the source starts from, before [initWake]. *)
Definition start_world : World :=
  mkWorld ∅ 0 PI (mkVector3 0 0.35 0) PI false None [] 0
          (mkSpeech true "none" "" "").

(** A boat lying on the centre of the first island of the registry,
    with the forward key held and the modal open. *)
Definition modal_world : World :=
  mkWorld {["w"]} 10 1 (mkVector3 (-24) 0.35 (-6)) 0 true None [] 0
          (mkSpeech true "flex" "Tropical Cay" "Press E or click Dock to visit.").

(** A boat drifting at 0.05 in open water, no key held. *)
Definition drifting_world : World :=
  mkWorld ∅ 0.05 PI (mkVector3 0 0.35 0) PI false None [] 0
          (mkSpeech true "none" "" "").

(** A boat at rest 8 east of the centre of the first island of the
    registry, whose exclusion disc has radius 9.1. *)
Definition approach_world : World :=
  mkWorld ∅ 0 PI (mkVector3 (-16) 0.35 (-6)) PI false None [] 0
          (mkSpeech true "none" "" "").

(** Two islands of radius 6 whose centres are 10 apart, and a boat at
    rest half-way between them. *)
Definition west : Island := mkIsland "tropical-0" tropical 6 (mkVector3 0 0 0).
Definition east : Island := mkIsland "arctic-1" arctic 6 (mkVector3 10 0 0).

Definition between_world : World :=
  mkWorld ∅ 0 PI (mkVector3 5 0.35 0) PI false None [] 0
          (mkSpeech true "none" "" "").

(** Two islands of radius 6 at distance 10 on either side of the origin. *)
Definition isle_a : Island := mkIsland "tropical-0" tropical 6 (mkVector3 10 0 0).
Definition isle_b : Island := mkIsland "arctic-1" arctic 6 (mkVector3 (-10) 0 0).

(** A slot claimed on an earlier tick, now 0.9 s old. *)
Definition young_slot : WakeSlot :=
  mkWakeSlot (mkMesh (mkVector3 0 0.02 1.2) true (setScalar 0.6) 0.45) 0.9 true.

Definition wake_world : World :=
  mkWorld {["w"]} 5 PI (mkVector3 0 0.35 0) PI false None [young_slot] 0.05
          (mkSpeech true "none" "" "").

(* ===================================================================== *)
(** * Further vocabulary and scenarios *)
(* ===================================================================== *)

(** A boat that was boosting at 16 and now has only the forward key. *)
Definition after_boost_world : World :=
  mkWorld {["w"]} 16 PI (mkVector3 0 0.35 0) PI false None [] 0
          (mkSpeech true "none" "" "").

(** Forward and backward held together, with boost, at speed 5. *)
Definition tug_world : World :=
  mkWorld {["w"; "s"; "shift"]} 5 PI (mkVector3 0 0.35 0) PI false None [] 0
          (mkSpeech true "none" "" "").

(** The sum of the [delta]s of a list of frames. *)
Definition totalDelta (frames : list (R * R)) : R :=
  foldr (λ f acc, f.1 + acc) 0 frames.

(** Forward held from rest. *)
Definition ahead_world : World :=
  mkWorld {["w"]} 0 PI (mkVector3 0 0.35 0) PI false None [] 0
          (mkSpeech true "none" "" "").

(** Several frames, one [(delta, elapsed)] pair per frame. *)
Definition play (islands : list Island) (frames : list (R * R)) (w : World) : World :=
  foldl (λ w f, animate islands f.1 f.2 w) w frames.

#[global] Instance Vector3_eq_dec : EqDecision Vector3.
Proof. solve_decision. Defined.

#[global] Instance Biome_eq_dec : EqDecision Biome.
Proof. solve_decision. Defined.

#[global] Instance Island_eq_dec : EqDecision Island.
Proof. solve_decision. Defined.

(** The first island the source creates. *)
Definition first_island : Island :=
  mkIsland "tropical-0" tropical 7.5 (mkVector3 (-24) 0 (-6)).

(** A fast boat with the timer run, and a pool of one old particle and
    two free slots. *)
Definition cruising_world : World :=
  mkWorld {["w"]} 5 0 (mkVector3 0 0.35 0) PI false None
          [young_slot; freshSlot; freshSlot] 0.05
          (mkSpeech true "none" "" "").

(** Lower case for the letters A to Z, every other character as it is:
    what [toLowerCase] does on the names of the keys the program reads. *)
Definition lowerAscii (c : Ascii.ascii) : Ascii.ascii :=
  let n := Ascii.nat_of_ascii c in
  if (65 <=? n)%nat && (n <=? 90)%nat then Ascii.ascii_of_nat (n + 32) else c.

Fixpoint lowerString (s : string) : string :=
  match s with
  | EmptyString => EmptyString
  | String c rest => String (lowerAscii c) (lowerString rest)
  end.

(** The part of a keydown that records the key. *)
Definition recorded (toLowerCase : string -> string) (key : string) (pg : Page) : Page :=
  mkPage (setKeys (world pg) ({[toLowerCase key]} ∪ keys (world pg))) (modal pg).

(** The three handles [openModal] asks for. *)
Definition modalReady (m : Modal) : bool :=
  modalBackdrop m && modalTitle m && modalBody m.

(** The modal flag is set only with the backdrop found and shown. *)
Definition modalSound (pg : Page) : Prop :=
  modalOpen (world pg) = true ->
  modalBackdrop (modal pg) = true /\ backdrop_display (modal pg) = "flex".

(** The pool has its [wakeCount] slots, each visible exactly when
    alive, and the speed is within its caps. *)
Definition healthy (w : World) : Prop :=
  List.length (wakePool w) = wakeCount /\
  Forall (λ p, visible (mesh p) = alive p) (wakePool w) /\
  - maxSpeed * 0.5 <= boatSpeed w <= maxSpeed * 1.4.

(** A page with every handle found, the boat at rest near nothing. *)
Definition ready_modal : Modal := mkModal true true true "none" "" "".
Definition start_page : Page := mkPage start_world ready_modal.

(** A boat within reach of the first island, which is active. *)
Definition docked_world : World :=
  mkWorld ∅ 0 PI (mkVector3 (-14.9) 0.35 (-6)) PI false (Some first_island) [] 0
          (mkSpeech true "flex" "Tropical Cay" "Press E or click Dock to visit.").
Definition docked_page : Page := mkPage docked_world ready_modal.

(** The first bird of [initBirds], with some phase. *)
Definition gull : Birds.Bird := Birds.mkBird (mkVector3 0 0 0) 14 0.5 9 1 0.4.

(** The tints stand for the colours of the source; only their being
    colours matters here. *)
Definition plain_tint (i : Island) : Tint.Color := Tint.mkColor 0.1 0.7 0.7.

(** Forward and backward held together, at a crawl. *)
Definition spent_world : World :=
  mkWorld {["w"; "s"]} 0.06 PI (mkVector3 0 0.35 0) PI false None [] 0
          (mkSpeech true "none" "" "").

(** A boat coasting at 5 in open water, heading 0, no key held. *)
Definition coasting_world : World :=
  mkWorld ∅ 5 0 (mkVector3 0 0.35 0) PI false None [] 0
          (mkSpeech true "none" "" "").

(* ===================================================================== *)
(** * Properties of the boat controller *)
(* ===================================================================== *)

Section Clamp.

Lemma clamp_lower v lo hi : lo <= clamp v lo hi.
Proof. unfold clamp. apply Rmax_l. Qed.

Lemma clamp_upper v lo hi : lo <= hi -> clamp v lo hi <= hi.
Proof.
  intros Hle. unfold clamp. apply Rmax_lub; [exact Hle | apply Rmin_l].
Qed.

Lemma clamp_id v lo hi : lo <= v <= hi -> clamp v lo hi = v.
Proof.
  intros [Hlo Hhi]. unfold clamp.
  rewrite (Rmin_right hi v) by exact Hhi.
  apply Rmax_right. exact Hlo.
Qed.

Lemma bounds_value : bounds = 108.
Proof. unfold bounds, waterSize. lra. Qed.

End Clamp.

Section Collisions.

Lemma collide_speed ps island :
  (collide ps island).2 = ps.2 \/ (collide ps island).2 = 0.
Proof.
  unfold collide. case_decide; [right | left]; reflexivity.
Qed.

Lemma collisions_speed islands : forall ps,
  (collisions islands ps).2 = ps.2 \/ (collisions islands ps).2 = 0.
Proof.
  unfold collisions.
  induction islands as [|i rest IH]; intros ps; simpl.
  - left; reflexivity.
  - destruct (IH (collide ps i)) as [E|E]; [|right; exact E].
    rewrite E. apply collide_speed.
Qed.

End Collisions.

(** What [updateBoat] leaves when the modal is closed, field by field. *)
Lemma updateBoat_closed islands delta elapsed w :
  modalOpen w = false ->
  let speed1 := inputSpeed (keys w) delta (boatSpeed w) in
  let heading := inputHeading (keys w) delta speed1 (boatHeading w) in
  let r := collisions islands
             (tentative (boat_position w) heading speed1 delta, speed1) in
  boatSpeed (updateBoat islands delta elapsed w) = r.2 /\
  boatHeading (updateBoat islands delta elapsed w) = heading /\
  x (boat_position (updateBoat islands delta elapsed w)) = x (clampBounds r.1) /\
  z (boat_position (updateBoat islands delta elapsed w)) = z (clampBounds r.1).
Proof.
  intros Hm. unfold updateBoat. rewrite Hm. simpl.
  destruct (collisions _ _) as [p s]. simpl. repeat split.
Qed.

Lemma inputSpeed_range ks delta s :
  - maxSpeed * 0.5 <= s <= maxSpeed * 1.4 ->
  - maxSpeed * 0.5 <= inputSpeed ks delta s <= maxSpeed * 1.4.
Proof.
  unfold inputSpeed, damping, maxSpeed. intros [Hlo Hhi].
  case_decide as Hf.
  - case_decide; lra.
  - assert (Hb : 1 <= boost ks <= 1.4)
      by (unfold boost; destruct (boosting ks); lra).
    split.
    + apply clamp_lower.
    + etransitivity; [apply clamp_upper|]; lra.
Qed.

(** The modal-open branch, as a whole. *)
Lemma updateBoat_open islands delta elapsed w :
  modalOpen w = true ->
  updateBoat islands delta elapsed w =
    mkWorld (keys w) (boatSpeed w * 0.9) (boatHeading w) (boat_position w)
            (boat_rotation_y w) true (activeIsland w)
            (wakePool w) (wakeTimer w) (speech w).
Proof. intros Hm. unfold updateBoat. rewrite Hm. reflexivity. Qed.

(** C6.  When the modal is open, [updateBoat] multiplies the speed by
    0.9 and returns: heading, position (x, y and z), visual rotation and
    every other variable are as before the call, whatever [delta], the
    keys held and the islands are, so neither the collision loop nor
    the bounds clamp has run. *)
Theorem updateBoat_modal_frame islands delta elapsed w :
  modalOpen w = true ->
  let w' := updateBoat islands delta elapsed w in
  boatSpeed w' = boatSpeed w * 0.9 /\
  boatHeading w' = boatHeading w /\
  boat_position w' = boat_position w /\
  boat_rotation_y w' = boat_rotation_y w /\
  keys w' = keys w /\ modalOpen w' = true /\
  activeIsland w' = activeIsland w /\
  wakePool w' = wakePool w /\ wakeTimer w' = wakeTimer w /\
  speech w' = speech w.
Proof.
  intros Hm w'. subst w'. rewrite (updateBoat_open islands delta elapsed w Hm).
  simpl. repeat split.
Qed.

Lemma updateBoat_modal_frame_witness :
  boatSpeed (updateBoat registry 1 0 modal_world) = 10 * 0.9 /\
  boat_position (updateBoat registry 1 0 modal_world) = mkVector3 (-24) 0.35 (-6).
Proof.
  pose proof (updateBoat_modal_frame registry 1 0 modal_world eq_refl) as H.
  simpl in H. destruct H as (Hs & _ & Hp & _).
  split; [exact Hs | exact Hp].
Defined.

(** ** The modal-open decay, on doubles *)

(** The product of a double other than zero and [0.9] is never zero:
    the smallest positive double times 0.9 rounds back up to itself,
    and every larger product keeps at least one bit after the shift to
    the exponent of the result. *)
Section Doubles.

Local Open Scope Z_scope.

Lemma digits2_pos_bounds m :
  2 ^ (Zpos (digits2_pos m) - 1) <= Zpos m < 2 ^ Zpos (digits2_pos m).
Proof.
  induction m as [m IH|m IH|]; cbn [digits2_pos].
  - rewrite Pos2Z.inj_succ.
    replace (Z.succ (Zpos (digits2_pos m)) - 1)
      with (Z.succ (Zpos (digits2_pos m) - 1)) by lia.
    rewrite !Z.pow_succ_r by lia. lia.
  - rewrite Pos2Z.inj_succ.
    replace (Z.succ (Zpos (digits2_pos m)) - 1)
      with (Z.succ (Zpos (digits2_pos m) - 1)) by lia.
    rewrite !Z.pow_succ_r by lia. lia.
  - change (2 ^ (1 - 1) <= 1 < 2 ^ 1). lia.
Qed.

Lemma shr_1_m mrs : 0 <= shr_m mrs -> shr_m (shr_1 mrs) = shr_m mrs / 2.
Proof.
  destruct mrs as [m r t]. cbn [shr_m]. intros Hm.
  destruct m as [|[p|p|]|p]; simpl; try lia.
  - reflexivity.
  - apply (Z.div_unique (Zpos (xI p)) 2 (Zpos p) 1); lia.
  - apply (Z.div_unique (Zpos (xO p)) 2 (Zpos p) 0); lia.
  - reflexivity.
Qed.

Lemma pow2_xO p : 2 ^ Zpos (xO p) = 2 ^ Zpos p * 2 ^ Zpos p.
Proof. rewrite Pos2Z.inj_xO, <- Z.pow_add_r by lia. f_equal. lia. Qed.

Lemma pow2_xI p : 2 ^ Zpos (xI p) = 2 * (2 ^ Zpos p * 2 ^ Zpos p).
Proof.
  rewrite Pos2Z.inj_xI, <- Z.pow_add_r by lia.
  replace (2 * Zpos p + 1) with (Z.succ (Zpos p + Zpos p)) by lia.
  apply Z.pow_succ_r. lia.
Qed.

(** [p] single shifts divide the mantissa by [2 ^ p]. *)
Lemma iter_shr_m p : forall mrs,
  0 <= shr_m mrs -> shr_m (SpecFloat.iter_pos shr_1 p mrs) = shr_m mrs / 2 ^ Zpos p.
Proof.
  assert (Hpow : forall q, 0 < 2 ^ Zpos q) by (intros q; apply Z.pow_pos_nonneg; lia).
  induction p as [p IH|p IH|]; intros mrs Hm; cbn [SpecFloat.iter_pos].
  - assert (H1 : 0 <= shr_m (shr_1 mrs))
      by (rewrite shr_1_m by exact Hm; apply Z.div_pos; lia).
    assert (H2 : 0 <= shr_m (SpecFloat.iter_pos shr_1 p (shr_1 mrs)))
      by (rewrite IH by exact H1; apply Z.div_pos; [exact H1 | apply Hpow]).
    rewrite IH by exact H2. rewrite IH by exact H1. rewrite shr_1_m by exact Hm.
    pose proof (Hpow p).
    rewrite !Z.div_div by lia. rewrite pow2_xI. reflexivity.
  - assert (H2 : 0 <= shr_m (SpecFloat.iter_pos shr_1 p mrs))
      by (rewrite IH by exact Hm; apply Z.div_pos; [exact Hm | apply Hpow]).
    rewrite IH by exact H2. rewrite IH by exact Hm.
    pose proof (Hpow p).
    rewrite !Z.div_div by lia. rewrite pow2_xO. reflexivity.
  - rewrite shr_1_m by exact Hm. reflexivity.
Qed.

(** A shift by [n] leaves at least 1 of a mantissa of at least [2 ^ n]. *)
Lemma shr_keeps mrs e n :
  0 < shr_m mrs -> (0 < n -> 2 ^ n <= shr_m mrs) ->
  1 <= shr_m (shr mrs e n).1.
Proof.
  intros Hm Hn. unfold shr. destruct n as [|p|p]; cbn [fst]; try lia.
  rewrite iter_shr_m by lia.
  apply Z.div_le_lower_bound; [apply Z.pow_pos_nonneg; lia|].
  specialize (Hn ltac:(lia)). lia.
Qed.

Lemma shr_record_of_loc_m m l : shr_m (shr_record_of_loc m l) = m.
Proof. destruct l as [|[| |]]; reflexivity. Qed.

Lemma round_nearest_even_ge m l : m <= round_nearest_even m l.
Proof.
  destruct l as [|[| |]]; cbn [round_nearest_even]; try lia.
  destruct (Z.even m); lia.
Qed.

Lemma shr_fexp_keeps m e l :
  0 < m ->
  (0 < fexp prec emax (Zdigits2 m + e) - e ->
   2 ^ (fexp prec emax (Zdigits2 m + e) - e) <= m) ->
  1 <= shr_m (shr_fexp prec emax m e l).1.
Proof.
  intros Hm Hn. unfold shr_fexp.
  apply shr_keeps; rewrite shr_record_of_loc_m; assumption.
Qed.

Lemma fexp_emin k : -1074 <= fexp prec emax k.
Proof. unfold fexp, emin, prec, emax. apply Z.le_max_r. Qed.

Lemma fexp_cases k :
  fexp prec emax k = k - 53 \/ fexp prec emax k = -1074.
Proof.
  unfold fexp, emin, prec, emax.
  destruct (Z.max_spec (k - 53) (3 - 1024 - 53)) as [[_ E]|[_ E]];
    [right | left]; exact E.
Qed.

(** The exponent after the shift is never below the smallest. *)
Lemma shr_fexp_exponent m e l : -1074 <= (shr_fexp prec emax m e l).2.
Proof.
  unfold shr_fexp, shr.
  pose proof (fexp_emin (Zdigits2 m + e)) as Hf.
  destruct (fexp prec emax (Zdigits2 m + e) - e) as [|p|p] eqn:E; cbn [snd]; lia.
Qed.

Lemma pow2_le a b : 0 <= a <= b -> 2 ^ a <= 2 ^ b.
Proof. intros H. apply Z.pow_le_mono_r; lia. Qed.

(** At an exponent no lower than the smallest, the shift only drops the
    bits beyond the 53 of the format. *)
Lemma shr_fexp_normal m e l :
  0 < m -> -1074 <= e -> 1 <= shr_m (shr_fexp prec emax m e l).1.
Proof.
  intros Hm He. apply shr_fexp_keeps; [exact Hm|].
  destruct m as [|p|p]; try lia. cbn [Zdigits2].
  pose proof (digits2_pos_bounds p) as [Hd _].
  destruct (fexp_cases (Zpos (digits2_pos p) + e)) as [E|E]; rewrite E; intros Hn.
  - etransitivity; [|exact Hd]. apply pow2_le. lia.
  - lia.
Qed.

(** Rounding a mantissa that survives the first shift never gives a
    zero. *)
Lemma binary_round_aux_nonzero sx m e l :
  0 < m ->
  (0 < fexp prec emax (Zdigits2 m + e) - e ->
   2 ^ (fexp prec emax (Zdigits2 m + e) - e) <= m) ->
  SFeqb (binary_round_aux prec emax sx m e l) (S754_zero false) = false.
Proof.
  intros Hm Hn. unfold binary_round_aux.
  pose proof (shr_fexp_keeps m e l Hm Hn) as H1.
  pose proof (shr_fexp_exponent m e l) as He.
  destruct (shr_fexp prec emax m e l) as [mrs' e']. cbn [fst snd] in H1, He.
  pose proof (round_nearest_even_ge (shr_m mrs') (loc_of_shr_record mrs')) as Hr.
  pose proof (shr_fexp_normal
                (round_nearest_even (shr_m mrs') (loc_of_shr_record mrs')) e' loc_Exact
                ltac:(lia) He) as H2.
  destruct (shr_fexp prec emax _ e' loc_Exact) as [mrs'' e'']. cbn [fst] in H2.
  destruct (shr_m mrs'') as [|p|p]; try lia.
  destruct (e'' <=? emax - prec); destruct sx; reflexivity.
Qed.

Lemma point9_SF :
  Prim2SF Binary64.point9 = S754_finite false 8106479329266893 (-53).
Proof. reflexivity. Qed.

(** [point9] is the double nearest to 9/10: ten times its mantissa is
    within half a unit in the last place, times ten, of 9 * 2^53. *)
Lemma point9_nearest :
  Z.abs (10 * 8106479329266893 - 9 * 2 ^ 53) <= 5.
Proof. apply Z.leb_le. reflexivity. Qed.

(** One modal tick never turns a speed other than zero into zero. *)
Lemma modalTick_nonzero s :
  (s =? 0)%float = false -> (Binary64.modalTick s =? 0)%float = false.
Proof.
  unfold Binary64.modalTick. rewrite !FloatAxioms.eqb_spec, FloatAxioms.mul_spec, point9_SF.
  pose proof (Prim2SF_valid s) as Hv.
  change (Prim2SF 0) with (S754_zero false).
  destruct (Prim2SF s) as [sx|sx| |sx mx ex];
    try (destruct sx; intros; reflexivity || discriminate).
  - intros; reflexivity.
  - intros _. unfold SF64mul, SFmul.
    cbn [valid_binary] in Hv. unfold bounded, canonical_mantissa in Hv.
    apply andb_prop in Hv as [Hc _]. apply Z.eqb_eq in Hc.
    pose proof (fexp_emin (Zpos (digits2_pos mx) + ex)) as Hex. rewrite Hc in Hex.
    assert (Hmy : 2 ^ 52 <= 8106479329266893) by (apply Z.leb_le; reflexivity).
    pose proof (digits2_pos_bounds (mx * 8106479329266893)) as [Hd _].
    destruct (Z.eq_dec ex (-1074)) as [->|Hne].
    + destruct (Pos.eq_dec mx 1%positive) as [->|Hm1].
      * destruct sx; reflexivity.
      * apply binary_round_aux_nonzero; [lia|].
        cbn [Zdigits2].
        assert (Hp : 2 ^ 53 <= Zpos (mx * 8106479329266893)).
        { rewrite Pos2Z.inj_mul. change (2 ^ 53) with (2 * 2 ^ 52). nia. }
        destruct (fexp_cases (Zpos (digits2_pos (mx * 8106479329266893)) + (-1074 + -53)))
          as [E|E]; rewrite E; intros Hn.
        -- etransitivity; [|exact Hd]. apply pow2_le. lia.
        -- etransitivity; [|exact Hp]. apply pow2_le. lia.
    + apply binary_round_aux_nonzero; [lia|].
      cbn [Zdigits2].
      assert (Hp : 2 ^ 52 <= Zpos (mx * 8106479329266893)).
      { rewrite Pos2Z.inj_mul. nia. }
      destruct (fexp_cases (Zpos (digits2_pos (mx * 8106479329266893)) + (ex + -53)))
        as [E|E]; rewrite E; intros Hn.
      * etransitivity; [|exact Hd]. apply pow2_le. lia.
      * etransitivity; [|exact Hp]. apply pow2_le. lia.
Qed.

End Doubles.

Lemma modalTicks_nonzero n s :
  (s =? 0)%float = false -> (Binary64.modalTicks n s =? 0)%float = false.
Proof.
  intros Hs. unfold Binary64.modalTicks.
  induction n as [|n IH]; [exact Hs|]. rewrite Nat.iter_succ.
  apply modalTick_nonzero, IH.
Qed.

(** At [stall] the decay stops: 2.5e-323 times 0.9 is 2.25e-323, which
    rounds back to 2.5e-323. *)
Lemma modalTicks_stall n :
  Binary64.modalTicks n Binary64.stall = Binary64.stall.
Proof.
  unfold Binary64.modalTicks.
  induction n as [|n IH]; [reflexivity|]. rewrite Nat.iter_succ, IH.
  reflexivity.
Qed.

(** C10, as the code has it.  The modal-open branch has no snap to
    zero: a speed other than zero is still other than zero after any
    number of modal-open ticks, below the 0.05 of the snap as well.
    The speed does not go to 0 either: from 2.5e-323 on, every tick
    leaves it as it is. *)
Theorem modal_speed_never_zero (n : nat) (s : float) :
  (s =? 0)%float = false ->
  (Binary64.modalTicks n s =? 0)%float = false /\
  (forall k, Binary64.modalTicks k Binary64.stall = Binary64.stall) /\
  (Binary64.stall =? 0)%float = false.
Proof.
  intros Hs. split; [apply modalTicks_nonzero, Hs|].
  split; [apply modalTicks_stall | reflexivity].
Qed.

Lemma modal_speed_never_zero_witness :
  (Binary64.modalTicks 200 0x1.47ae147ae147bp-7 =? 0)%float = false.
Proof.
  exact (proj1 (modal_speed_never_zero 200 0x1.47ae147ae147bp-7%float eq_refl)).
Defined.

(** C10 as stated fails where it lets the speed approach 0: a speed of
    2.5e-323 is never below 2.5e-323 again, however many modal-open
    ticks follow. *)
Lemma modal_stall_counterexample :
  ~ (forall eps : float, (0 <? eps)%float = true ->
       exists n, (PrimFloat.abs (Binary64.modalTicks n Binary64.stall) <? eps)%float = true).
Proof.
  intros H. destruct (H Binary64.stall eq_refl) as [n Hn].
  rewrite modalTicks_stall in Hn. discriminate Hn.
Qed.

(** C2.  The interval [-maxSpeed * 0.5, maxSpeed * 1.4] is preserved by
    [updateBoat], for every [delta >= 0], every set of held keys and
    either value of the modal flag. *)
Theorem updateBoat_speed_range islands delta elapsed w :
  0 <= delta ->
  - maxSpeed * 0.5 <= boatSpeed w <= maxSpeed * 1.4 ->
  - maxSpeed * 0.5 <= boatSpeed (updateBoat islands delta elapsed w) <= maxSpeed * 1.4.
Proof.
  intros _ Hr. destruct (modalOpen w) eqn:Hm.
  - rewrite (updateBoat_open islands delta elapsed w Hm). simpl.
    unfold maxSpeed in *. lra.
  - destruct (updateBoat_closed islands delta elapsed w Hm) as [-> _].
    pose proof (inputSpeed_range (keys w) delta (boatSpeed w) Hr) as Hi.
    destruct (collisions_speed islands
                (tentative (boat_position w)
                   (inputHeading (keys w) delta
                      (inputSpeed (keys w) delta (boatSpeed w)) (boatHeading w))
                   (inputSpeed (keys w) delta (boatSpeed w)) delta,
                 inputSpeed (keys w) delta (boatSpeed w))) as [-> | ->].
    + exact Hi.
    + unfold maxSpeed. lra.
Qed.

Lemma updateBoat_speed_range_witness :
  - maxSpeed * 0.5 <= boatSpeed (updateBoat registry 1 0 wake_world) <= maxSpeed * 1.4.
Proof.
  apply (updateBoat_speed_range registry 1 0 wake_world).
  - lra.
  - unfold maxSpeed. simpl. lra.
Defined.

Lemma forward_released (ks : gset string) :
  "w" ∉ ks -> "arrowup" ∉ ks -> "s" ∉ ks -> "arrowdown" ∉ ks -> forward ks = 0.
Proof.
  intros H1 H2 H3 H4. unfold forward, axis, has.
  rewrite !bool_decide_eq_false_2 by assumption. simpl. lra.
Qed.

Lemma damped_smaller s : s <> 0 -> Rabs (s * damping) < Rabs s.
Proof.
  intros Hs. unfold damping, Rabs.
  destruct (Rcase_abs (s * 0.96)), (Rcase_abs s); lra.
Qed.

(** C8.  With the modal closed, the position [updateBoat] commits has
    its x and z within [-waterSize * 0.45, waterSize * 0.45]; the clamp
    puts every position there, and clamping a clamped position changes
    nothing. *)
Theorem bounds_clamp islands delta elapsed w :
  modalOpen w = false ->
  let p' := boat_position (updateBoat islands delta elapsed w) in
  (- (waterSize * 0.45) <= x p' <= waterSize * 0.45 /\
   - (waterSize * 0.45) <= z p' <= waterSize * 0.45) /\
  (forall p, - (waterSize * 0.45) <= x (clampBounds p) <= waterSize * 0.45 /\
             - (waterSize * 0.45) <= z (clampBounds p) <= waterSize * 0.45) /\
  (forall p, clampBounds (clampBounds p) = clampBounds p).
Proof.
  intros Hm p'.
  assert (Hb : - bounds <= bounds) by (rewrite bounds_value; lra).
  assert (Hin : forall p, - (waterSize * 0.45) <= x (clampBounds p) <= waterSize * 0.45 /\
                          - (waterSize * 0.45) <= z (clampBounds p) <= waterSize * 0.45).
  { intros p. fold bounds. simpl.
    repeat split; first [apply clamp_lower | apply clamp_upper; exact Hb]. }
  split; [|split; [exact Hin|]].
  - subst p'.
    destruct (updateBoat_closed islands delta elapsed w Hm) as (_ & _ & -> & ->).
    apply Hin.
  - intros p. destruct (Hin p) as [Hx Hz]. fold bounds in Hx, Hz.
    unfold clampBounds at 1.
    rewrite (clamp_id (x (clampBounds p))) by exact Hx.
    rewrite (clamp_id (z (clampBounds p))) by exact Hz.
    destruct p; reflexivity.
Qed.

Lemma bounds_clamp_witness :
  - (waterSize * 0.45) <= x (boat_position (updateBoat registry 1 0 start_world))
    <= waterSize * 0.45.
Proof.
  pose proof (bounds_clamp registry 1 0 start_world eq_refl) as H.
  simpl in H. destruct H as ((Hx & _) & _). exact Hx.
Defined.

(* ===================================================================== *)
(** * Collision resolution *)
(* ===================================================================== *)

Section Geometry.

Lemma sum_sqr_nonneg a b : 0 <= a * a + b * b.
Proof. nra. Qed.

Lemma hypot_nonneg a b : 0 <= hypot a b.
Proof. apply sqrt_pos. Qed.

Lemma hypot_sqr a b : hypot a b * hypot a b = a * a + b * b.
Proof. apply sqrt_sqrt, sum_sqr_nonneg. Qed.

Lemma hypot_ge_l a b : Rabs a <= hypot a b.
Proof.
  rewrite <- sqrt_Rsqr_abs. unfold hypot, Rsqr.
  apply sqrt_le_1; nra.
Qed.

Lemma hypot_ge_r a b : Rabs b <= hypot a b.
Proof.
  rewrite <- sqrt_Rsqr_abs. unfold hypot, Rsqr.
  apply sqrt_le_1; nra.
Qed.

Lemma hypot_scale a b k : 0 <= k -> hypot (a * k) (b * k) = hypot a b * k.
Proof.
  intros Hk. unfold hypot.
  replace (a * k * (a * k) + b * k * (b * k)) with ((a * a + b * b) * (k * k)) by ring.
  rewrite sqrt_mult by nra.
  rewrite (sqrt_square k Hk). reflexivity.
Qed.

Lemma hypot_eq_0 a b : hypot a b = 0 -> a = 0 /\ b = 0.
Proof.
  intros H. apply sqrt_eq_0 in H; [|apply sum_sqr_nonneg]. split; nra.
Qed.

Lemma hypot_flat a : hypot a 0 = Rabs a.
Proof.
  unfold hypot. rewrite <- sqrt_Rsqr_abs. f_equal. unfold Rsqr. ring.
Qed.

Lemma hypot_triangle a b c d : hypot (a + c) (b + d) <= hypot a b + hypot c d.
Proof.
  pose proof (triangle (a + c) (b + d) 0 0 c d) as H.
  unfold dist_euc, Rsqr in H. unfold hypot.
  replace ((a + c - 0) * (a + c - 0) + (b + d - 0) * (b + d - 0))
    with ((a + c) * (a + c) + (b + d) * (b + d)) in H by ring.
  replace ((a + c - c) * (a + c - c) + (b + d - d) * (b + d - d))
    with (a * a + b * b) in H by ring.
  replace ((c - 0) * (c - 0) + (d - 0) * (d - 0)) with (c * c + d * d) in H by ring.
  exact H.
Qed.

Lemma hypot_opp a b : hypot (- a) (- b) = hypot a b.
Proof. unfold hypot. f_equal. ring. Qed.

Lemma length_flat a b : length (mkVector3 a 0 b) = hypot a b.
Proof. unfold length, hypot. simpl. f_equal. ring. Qed.

(** A lower bound for a square root, by squaring. *)
Lemma hypot_lower m a b : m * m <= a * a + b * b -> m <= hypot a b.
Proof.
  intros H. destruct (Rle_lt_dec m 0) as [Hm|Hm].
  - pose proof (hypot_nonneg a b). lra.
  - rewrite <- (sqrt_square m) by lra. apply sqrt_le_1; nra.
Qed.

(** The centres of two islands are no farther apart than the sum of
    their distances to any one point. *)
Lemma centre_triangle p i j :
  hypot (x (position i) - x (position j)) (z (position i) - z (position j))
    <= centreDist p i + centreDist p j.
Proof.
  unfold centreDist.
  pose proof (hypot_triangle (x (position i) - x p) (z (position i) - z p)
                (x p - x (position j)) (z p - z (position j))) as Ht.
  replace (x (position i) - x p + (x p - x (position j)))
    with (x (position i) - x (position j)) in Ht by ring.
  replace (z (position i) - z p + (z p - z (position j)))
    with (z (position i) - z (position j)) in Ht by ring.
  rewrite <- (hypot_opp (x (position i) - x p)) in Ht.
  replace (- (x (position i) - x p)) with (x p - x (position i)) in Ht by ring.
  replace (- (z (position i) - z p)) with (z p - z (position i)) in Ht by ring.
  exact Ht.
Qed.

(** A point strictly inside the exclusion disc of one island is
    strictly outside the disc of every island [apart] from it. *)
Lemma apart_exclusive p i j :
  apart i j -> centreDist p i < minDist i -> minDist j < centreDist p j.
Proof.
  unfold apart. intros Hap Hi. pose proof (centre_triangle p i j). lra.
Qed.

(** A point on the rim of one disc is outside, or on the rim of, the
    others. *)
Lemma apart_outside p i j :
  apart i j -> centreDist p i <= minDist i -> minDist j <= centreDist p j.
Proof.
  unfold apart. intros Hap Hi. pose proof (centre_triangle p i j). lra.
Qed.

Lemma apart_sym i j : apart i j -> apart j i.
Proof.
  unfold apart. intros H.
  rewrite <- hypot_opp.
  replace (- (x (position j) - x (position i)))
    with (x (position i) - x (position j)) by ring.
  replace (- (z (position j) - z (position i)))
    with (z (position i) - z (position j)) by ring.
  lra.
Qed.

End Geometry.

Section Resolution.

Lemma collide_far p s i :
  minDist i <= centreDist p i -> collide (p, s) i = (p, s).
Proof.
  intros H. unfold collide. simpl.
  rewrite decide_False; [reflexivity|]. unfold minDist, centreDist in H. lra.
Qed.

Lemma collide_push p s i :
  centreDist p i < minDist i -> collide (p, s) i = (pushed p i, 0).
Proof.
  intros H. unfold collide. simpl.
  rewrite decide_True by exact H. reflexivity.
Qed.

(** Off the centre, the push lands at exactly [minDist] from it. *)
Lemma pushed_dist p i :
  centreDist p i <> 0 -> centreDist p i < minDist i ->
  centreDist (pushed p i) i = minDist i.
Proof.
  intros Hnz Hlt.
  pose proof (hypot_nonneg (x p - x (position i)) (z p - z (position i))) as H0.
  fold (centreDist p i) in H0.
  unfold centreDist at 1. unfold pushed, normalize, divideScalar, multiplyScalar.
  rewrite length_flat. fold (centreDist p i).
  rewrite decide_False by exact Hnz. simpl.
  replace (x (position i) + (x p - x (position i)) * (1 / centreDist p i) * minDist i
           - x (position i))
    with ((x p - x (position i)) * (1 / centreDist p i * minDist i)) by ring.
  replace (z (position i) + (z p - z (position i)) * (1 / centreDist p i) * minDist i
           - z (position i))
    with ((z p - z (position i)) * (1 / centreDist p i * minDist i)) by ring.
  assert (Hinv : 0 < 1 / centreDist p i) by (apply Rdiv_lt_0_compat; lra).
  rewrite hypot_scale by nra.
  fold (centreDist p i). field. exact Hnz.
Qed.

(** On the centre there is no direction to push along: the position
    stays on the centre. *)
Lemma pushed_centre p i :
  centreDist p i = 0 ->
  x (pushed p i) = x (position i) /\ z (pushed p i) = z (position i).
Proof.
  intros Hz. destruct (hypot_eq_0 _ _ Hz) as [Hx Hzz].
  unfold pushed, normalize, divideScalar, multiplyScalar. simpl.
  rewrite Hx, Hzz. split; ring.
Qed.

Lemma collisions_app l1 l2 ps :
  collisions (l1 ++ l2) ps = collisions l2 (collisions l1 ps).
Proof. unfold collisions. apply foldl_app. Qed.

Lemma collisions_outside islands p s :
  Forall (λ j, minDist j <= centreDist p j) islands ->
  collisions islands (p, s) = (p, s).
Proof.
  induction 1 as [|j l Hj _ IH]; [reflexivity|].
  change (collisions (j :: l) (p, s)) with (collisions l (collide (p, s) j)).
  rewrite (collide_far p s j Hj). exact IH.
Qed.

Lemma separated_split l1 i l2 :
  separated (l1 ++ i :: l2) -> Forall (apart i) l1 /\ Forall (apart i) l2.
Proof.
  induction l1 as [|k l1 IH]; simpl.
  - intros [H _]. split; [constructor | exact H].
  - intros [Hk Hs]. destruct (IH Hs) as [H1 H2]. split; [|exact H2].
    constructor; [|exact H1].
    apply apart_sym. rewrite Forall_forall in Hk. apply Hk.
    apply elem_of_app. right. apply elem_of_cons. left. reflexivity.
Qed.

(** With no two exclusion discs overlapping, the loop either finds the
    position outside every disc and leaves it, or finds it inside
    exactly one, and pushes it out of that one. *)
Lemma collisions_resolved islands p s :
  separated islands ->
  (Forall (λ j, minDist j <= centreDist p j) islands /\
   collisions islands (p, s) = (p, s)) \/
  (exists l1 i l2,
     islands = l1 ++ i :: l2 /\
     centreDist p i < minDist i /\
     Forall (λ j, minDist j < centreDist p j) (l1 ++ l2) /\
     collisions islands (p, s) = collisions l2 (pushed p i, 0) /\
     (centreDist p i <> 0 ->
      collisions islands (p, s) = (pushed p i, 0) /\
      Forall (λ j, minDist j <= centreDist (pushed p i) j) islands)).
Proof.
  intros Hsep.
  destruct (decide (Forall (λ j, minDist j <= centreDist p j) islands)) as [Hall|Hnot].
  - left. split; [exact Hall | apply collisions_outside; exact Hall].
  - right. apply not_Forall_Exists in Hnot; [|apply _].
    apply Exists_exists in Hnot as (i & Hin & Hi).
    apply list_elem_of_split in Hin as (l1 & l2 & ->).
    assert (Hlt : centreDist p i < minDist i) by (simpl in Hi; lra).
    destruct (separated_split l1 i l2 Hsep) as [H1 H2].
    assert (Ho1 : Forall (λ j, minDist j < centreDist p j) l1).
    { eapply Forall_impl; [exact H1|]. intros j Hj. simpl.
      eapply apart_exclusive; eassumption. }
    assert (Ho2 : Forall (λ j, minDist j < centreDist p j) l2).
    { eapply Forall_impl; [exact H2|]. intros j Hj. simpl.
      eapply apart_exclusive; eassumption. }
    assert (E : collisions (l1 ++ i :: l2) (p, s) = collisions l2 (pushed p i, 0)).
    { rewrite collisions_app, collisions_outside.
      - change (collisions (i :: l2) (p, s)) with (collisions l2 (collide (p, s) i)).
        rewrite (collide_push p s i Hlt). reflexivity.
      - eapply Forall_impl; [exact Ho1|]. simpl. intros; lra. }
    exists l1, i, l2. split; [reflexivity|]. split; [exact Hlt|].
    split; [apply Forall_app; split; assumption|]. split; [exact E|].
    intros Hnz. pose proof (pushed_dist p i Hnz Hlt) as Hd.
    assert (Hp : forall l, Forall (apart i) l ->
                  Forall (λ j, minDist j <= centreDist (pushed p i) j) l).
    { intros l Hl. eapply Forall_impl; [exact Hl|]. intros j Hj. simpl.
      eapply apart_outside; [exact Hj | lra]. }
    split.
    + rewrite E. apply collisions_outside, Hp, H2.
    + apply Forall_app. split; [apply Hp, H1|].
      constructor; [lra | apply Hp, H2].
Qed.

(** The clamp does not bring a position nearer than [minDist] to an
    island whose exclusion disc is inside the world square. *)
Lemma clampBounds_outside q i :
  inWorld i -> minDist i <= centreDist q i -> minDist i <= centreDist (clampBounds q) i.
Proof.
  intros [Hx Hz] Hq. unfold centreDist in *. simpl.
  pose proof bounds_value as Hb.
  pose proof (hypot_ge_l (clamp (x q) (- bounds) bounds - x (position i))
                (clamp (z q) (- bounds) bounds - z (position i))) as Gx.
  pose proof (hypot_ge_r (clamp (x q) (- bounds) bounds - x (position i))
                (clamp (z q) (- bounds) bounds - z (position i))) as Gz.
  revert Hx Hz Gx Gz. unfold clamp, Rmax, Rmin, Rabs.
  repeat destruct (Rle_dec _ _); repeat destruct (Rcase_abs _); intros; lra.
Qed.

(** A position at most [minDist] from such an island is inside the
    square, so the clamp leaves it where it is. *)
Lemma clampBounds_inside q i :
  inWorld i -> centreDist q i <= minDist i ->
  x (clampBounds q) = x q /\ z (clampBounds q) = z q.
Proof.
  intros [Hx Hz] Hq. unfold centreDist in Hq.
  pose proof (hypot_ge_l (x q - x (position i)) (z q - z (position i))) as Gx.
  pose proof (hypot_ge_r (x q - x (position i)) (z q - z (position i))) as Gz.
  simpl. split; apply clamp_id;
    revert Hx Hz Gx Gz; unfold Rabs; repeat destruct (Rcase_abs _); intros; lra.
Qed.

End Resolution.

Lemma centreDist_xz p q i :
  x p = x q -> z p = z q -> centreDist p i = centreDist q i.
Proof. unfold centreDist. intros -> ->. reflexivity. Qed.

Lemma pushed_xz p i :
  centreDist p i <> 0 ->
  x (pushed p i)
    = x (position i) + (x p - x (position i)) / centreDist p i * minDist i /\
  z (pushed p i)
    = z (position i) + (z p - z (position i)) / centreDist p i * minDist i.
Proof.
  intros Hnz. unfold pushed, normalize, divideScalar, multiplyScalar.
  rewrite length_flat. fold (centreDist p i).
  rewrite decide_False by exact Hnz. simpl.
  split; field; exact Hnz.
Qed.

(** The registry of the source: no two exclusion discs overlap, and
    each lies inside the world square. *)
Ltac each_island :=
  repeat match goal with
         | |- True => exact I
         | |- _ /\ _ => split
         | |- Forall _ [] => apply Forall_nil_2
         | |- Forall _ (_ :: _) => apply Forall_cons_2
         end.

Lemma registry_separated : separated registry.
Proof.
  unfold registry. simpl. each_island;
    unfold apart, minDist, boatRadius; simpl; apply hypot_lower; lra.
Qed.

Lemma registry_inWorld : Forall inWorld registry.
Proof.
  unfold registry. each_island;
    unfold inWorld, minDist, boatRadius; simpl; rewrite bounds_value;
    unfold Rabs; repeat destruct (Rcase_abs _); lra.
Qed.

Lemma slack_pos : 0 < slack.
Proof. unfold slack. lra. Qed.

Lemma Rabs_slack a b : a = b -> Rabs (a - b) <= slack.
Proof.
  intros ->. replace (b - b) with 0 by ring. rewrite Rabs_R0.
  pose proof slack_pos. lra.
Qed.

(** C1, as the code has it.  Take a registry in which no two exclusion
    discs (radius + boatRadius around a centre) overlap and each lies
    inside the world square, as in the registry of the source, and a
    tentative position that is not within [slack] of an island's
    centre.  Then, with the modal closed, the position [updateBoat]
    commits, after the collision loop and the bounds clamp, is at least
    radius + boatRadius from every island's centre, up to [slack]; and
    if the tentative position was strictly nearer than that to an
    island, the committed x and z are, up to [slack], the centre plus
    the unit vector from the centre to the tentative position times
    radius + boatRadius, the committed position is within [slack] of
    that distance from the centre, and the speed is 0. *)
Theorem collision_separated islands delta elapsed w :
  modalOpen w = false ->
  separated islands ->
  Forall inWorld islands ->
  let speed1 := inputSpeed (keys w) delta (boatSpeed w) in
  let heading := inputHeading (keys w) delta speed1 (boatHeading w) in
  let p0 := tentative (boat_position w) heading speed1 delta in
  (forall i, i ∈ islands -> slack <= centreDist p0 i) ->
  let w' := updateBoat islands delta elapsed w in
  (forall i, i ∈ islands ->
     radius i + boatRadius - slack <= centreDist (boat_position w') i) /\
  (forall i, i ∈ islands ->
     centreDist p0 i < radius i + boatRadius ->
     Rabs (x (boat_position w')
           - (x (position i)
              + (x p0 - x (position i)) / centreDist p0 i * (radius i + boatRadius)))
       <= slack /\
     Rabs (z (boat_position w')
           - (z (position i)
              + (z p0 - z (position i)) / centreDist p0 i * (radius i + boatRadius)))
       <= slack /\
     Rabs (centreDist (boat_position w') i - (radius i + boatRadius)) <= slack /\
     boatSpeed w' = 0).
Proof.
  intros Hm Hsep Hin speed1 heading p0 Hnear w'.
  pose proof slack_pos as Hsl.
  assert (Hoff : forall i, i ∈ islands -> centreDist p0 i <> 0).
  { intros i Hi. specialize (Hnear i Hi). lra. }
  destruct (updateBoat_closed islands delta elapsed w Hm) as (Hs & _ & Hx & Hz).
  fold speed1 heading p0 w' in Hs, Hx, Hz.
  rewrite Forall_forall in Hin.
  destruct (collisions_resolved islands p0 speed1 Hsep)
    as [[Hall E] | (l1 & i & l2 & El & Hlt & Hothers & _ & Hres)].
  - rewrite E in Hs, Hx, Hz. cbn [fst snd] in Hs, Hx, Hz.
    rewrite Forall_forall in Hall. split.
    + intros i Hi. rewrite (centreDist_xz _ _ i Hx Hz).
      pose proof (clampBounds_outside p0 i (Hin i Hi) (Hall i Hi)) as Hc.
      unfold minDist in Hc. lra.
    + intros i Hi Hlt. specialize (Hall i Hi). unfold minDist in Hall. lra.
  - assert (Hi : i ∈ islands).
    { rewrite El. apply elem_of_app. right. apply elem_of_cons. left. reflexivity. }
    destruct (Hres (Hoff i Hi)) as [E Hout].
    rewrite E in Hs, Hx, Hz. cbn [fst snd] in Hs, Hx, Hz.
    rewrite Forall_forall in Hout. split.
    + intros k Hk. rewrite (centreDist_xz _ _ k Hx Hz).
      pose proof (clampBounds_outside (pushed p0 i) k (Hin k Hk) (Hout k Hk)) as Hc.
      unfold minDist in Hc. lra.
    + intros k Hk Hklt.
      assert (k = i) as ->.
      { rewrite El in Hk. apply elem_of_app in Hk as [Hk | Hk].
        - rewrite Forall_forall in Hothers.
          assert (Hk' : k ∈ l1 ++ l2) by (apply elem_of_app; left; exact Hk).
          specialize (Hothers k Hk'). unfold minDist in Hothers. simpl in Hothers. lra.
        - apply elem_of_cons in Hk as [-> | Hk]; [reflexivity|].
          rewrite Forall_forall in Hothers.
          assert (Hk' : k ∈ l1 ++ l2) by (apply elem_of_app; right; exact Hk).
          specialize (Hothers k Hk'). unfold minDist in Hothers. simpl in Hothers. lra. }
      pose proof (pushed_dist p0 i (Hoff i Hi) Hlt) as Hd.
      destruct (clampBounds_inside (pushed p0 i) i (Hin i Hi)) as [Cx Cz]; [lra|].
      destruct (pushed_xz p0 i (Hoff i Hi)) as [Px Pz].
      rewrite Cx in Hx. rewrite Cz in Hz.
      split; [apply Rabs_slack; rewrite Hx; exact Px|].
      split; [apply Rabs_slack; rewrite Hz; exact Pz|].
      split; [|exact Hs].
      apply Rabs_slack.
      rewrite (centreDist_xz _ (pushed p0 i) i Hx Hz). exact Hd.
Qed.

(** ** Concrete runs *)

Section AtRest.

Lemma inputSpeed_rest delta : inputSpeed ∅ delta 0 = 0.
Proof.
  unfold inputSpeed.
  rewrite decide_True by (apply forward_released; apply not_elem_of_empty).
  rewrite decide_True; [reflexivity|].
  rewrite Rmult_0_l, Rabs_R0. lra.
Qed.

Lemma tentative_rest pos heading delta : tentative pos heading 0 delta = pos.
Proof.
  destruct pos as [px py pz]. unfold tentative, addScaledVector. simpl.
  f_equal; ring.
Qed.

(** A boat at rest with no key held: the loop starts from where it is. *)
Lemma updateBoat_rest islands delta elapsed w :
  modalOpen w = false -> keys w = ∅ -> boatSpeed w = 0 ->
  let r := collisions islands (boat_position w, 0) in
  boatSpeed (updateBoat islands delta elapsed w) = r.2 /\
  x (boat_position (updateBoat islands delta elapsed w)) = x (clampBounds r.1) /\
  z (boat_position (updateBoat islands delta elapsed w)) = z (clampBounds r.1).
Proof.
  intros Hm Hk Hs.
  destruct (updateBoat_closed islands delta elapsed w Hm) as (H1 & _ & H2 & H3).
  rewrite Hk, Hs, inputSpeed_rest, tentative_rest in H1, H2, H3.
  repeat split; assumption.
Qed.

(** Positions level with an island's centre, east or west of it. *)
Lemma axis_east p i :
  z p = z (position i) -> x (position i) < x p ->
  centreDist p i = x p - x (position i) /\
  x (pushed p i) = x (position i) + minDist i /\
  z (pushed p i) = z (position i).
Proof.
  intros Hz Hx.
  assert (Hd : centreDist p i = x p - x (position i)).
  { unfold centreDist. replace (z p - z (position i)) with 0 by lra.
    rewrite hypot_flat. apply Rabs_right. lra. }
  split; [exact Hd|].
  destruct (pushed_xz p i) as [-> ->]; [rewrite Hd; lra|].
  rewrite Hd. split; [field; lra | rewrite Hz; field; lra].
Qed.

Lemma axis_west p i :
  z p = z (position i) -> x p < x (position i) ->
  centreDist p i = x (position i) - x p /\
  x (pushed p i) = x (position i) - minDist i /\
  z (pushed p i) = z (position i).
Proof.
  intros Hz Hx.
  assert (Hd : centreDist p i = x (position i) - x p).
  { unfold centreDist. replace (z p - z (position i)) with 0 by lra.
    rewrite hypot_flat, Rabs_left by lra. ring. }
  split; [exact Hd|].
  destruct (pushed_xz p i) as [-> ->]; [rewrite Hd; lra|].
  rewrite Hd. split; [field; lra | rewrite Hz; field; lra].
Qed.

End AtRest.

(** C1 as stated fails when exclusion discs overlap: the boat is pushed
    out of [west] to x = 7.6, which is inside [east]'s disc, then out
    of [east] to x = 2.4, and is committed there, 2.4 from the centre
    of [west] where 7.6 is required. *)
Lemma collision_overlap_counterexample :
  ~ (forall i, i ∈ [west; east] ->
       radius i + boatRadius
         <= centreDist (boat_position (updateBoat [west; east] 1 0 between_world)) i).
Proof.
  intros H.
  assert (Hw : west ∈ [west; east]) by (apply elem_of_cons; left; reflexivity).
  specialize (H west Hw).
  destruct (updateBoat_rest [west; east] 1 0 between_world eq_refl eq_refl eq_refl)
    as (_ & Hx & Hz).
  change (boat_position between_world) with (mkVector3 5 0.35 0) in Hx, Hz.
  set (p0 := mkVector3 5 0.35 0) in *.
  set (committed := boat_position (updateBoat [west; east] 1 0 between_world)) in *.
  destruct (axis_east p0 west) as (D1 & X1 & Z1); [reflexivity | simpl; lra |].
  assert (X1' : x (pushed p0 west) = 7.6)
    by (rewrite X1; unfold minDist, boatRadius; simpl; lra).
  assert (Z1' : z (pushed p0 west) = 0) by (rewrite Z1; reflexivity).
  assert (E1 : collide (p0, 0) west = (pushed p0 west, 0)).
  { apply collide_push. rewrite D1. unfold minDist, boatRadius. simpl. lra. }
  destruct (axis_west (pushed p0 west) east) as (D2 & X2 & Z2);
    [rewrite Z1'; reflexivity | rewrite X1'; simpl; lra |].
  assert (X2' : x (pushed (pushed p0 west) east) = 2.4)
    by (rewrite X2; unfold minDist, boatRadius; simpl; lra).
  assert (Z2' : z (pushed (pushed p0 west) east) = 0) by (rewrite Z2; reflexivity).
  assert (E2 : collide (pushed p0 west, 0) east = (pushed (pushed p0 west) east, 0)).
  { apply collide_push. rewrite D2, X1'. unfold minDist, boatRadius. simpl. lra. }
  assert (E : collisions [west; east] (p0, 0) = (pushed (pushed p0 west) east, 0)).
  { unfold collisions. cbn [foldl]. rewrite E1, E2. reflexivity. }
  rewrite E in Hx, Hz. cbn [fst] in Hx, Hz.
  unfold clampBounds in Hx, Hz. cbn [x z] in Hx, Hz.
  rewrite X2', clamp_id in Hx by (rewrite bounds_value; lra).
  rewrite Z2', clamp_id in Hz by (rewrite bounds_value; lra).
  destruct (axis_east committed west) as (D3 & _);
    [rewrite Hz; reflexivity | rewrite Hx; simpl; lra |].
  rewrite D3, Hx in H. unfold boatRadius in H. simpl in H. lra.
Qed.

(** The boat of [approach_world], 8 east of the centre of the first
    island, is committed 9.1 east of it, at rest, and clear of the
    other three. *)
Lemma collision_separated_witness :
  Rabs (x (boat_position (updateBoat registry 1 0 approach_world)) - -14.9) <= slack /\
  Rabs (z (boat_position (updateBoat registry 1 0 approach_world)) - -6) <= slack /\
  boatSpeed (updateBoat registry 1 0 approach_world) = 0 /\
  Forall (λ i, radius i + boatRadius - slack
                 <= centreDist (boat_position (updateBoat registry 1 0 approach_world)) i)
         registry.
Proof.
  pose proof (collision_separated registry 1 0 approach_world eq_refl
                registry_separated registry_inWorld) as H.
  cbv zeta in H.
  change (keys approach_world) with (∅ : gset string) in H.
  change (boatSpeed approach_world) with 0 in H.
  rewrite inputSpeed_rest, tentative_rest in H.
  change (boat_position approach_world) with (mkVector3 (-16) 0.35 (-6)) in H.
  destruct H as [Hall Hpush].
  - intros i Hi. unfold registry in Hi.
    repeat (apply elem_of_cons in Hi as [-> | Hi];
            [unfold centreDist, slack; cbn [position x z]; apply hypot_lower; lra|]).
    apply elem_of_nil in Hi. destruct Hi.
  - set (first := mkIsland "tropical-0" tropical 7.5 (mkVector3 (-24) 0 (-6))).
    assert (Hin : first ∈ registry) by (apply elem_of_cons; left; reflexivity).
    destruct (axis_east (mkVector3 (-16) 0.35 (-6)) first) as (Hd & _);
      [reflexivity | simpl; lra |].
    destruct (Hpush first Hin) as (Hx & Hz & _ & Hs).
    { rewrite Hd. unfold boatRadius. simpl. lra. }
    rewrite Hd in Hx, Hz. unfold boatRadius in Hx, Hz. cbn [radius position x z first] in Hx, Hz.
    split; [|split; [|split; [exact Hs | apply Forall_forall; exact Hall]]].
    + replace (-16 - -24) with 8 in Hx by lra.
      replace (-24 + 8 / 8 * (7.5 + 1.6)) with (-14.9) in Hx by lra.
      exact Hx.
    + replace (-16 - -24) with 8 in Hz by lra.
      replace (-6 + (-6 - -6) / 8 * (7.5 + 1.6)) with (-6) in Hz by lra.
      exact Hz.
Defined.

(** On the centre itself the callback has no direction to push along:
    [normalize] leaves the zero vector as it is, and the boat is
    committed on the centre. *)
Remark collision_on_centre p s i :
  centreDist p i = 0 -> 0 < minDist i ->
  (collide (p, s) i).2 = 0 /\ centreDist (collide (p, s) i).1 i = 0.
Proof.
  intros Hz Hm. rewrite collide_push by lra. split; [reflexivity|].
  destruct (pushed_centre p i Hz) as [Hx Hzz].
  cbn [fst]. unfold centreDist. rewrite Hx, Hzz.
  unfold hypot. replace (_ + _) with 0 by ring. apply sqrt_0.
Qed.

(* ===================================================================== *)
(** * Properties of the proximity bridge *)
(* ===================================================================== *)

Section Scan.

Variable p : Vector3.

Lemma first_nearest_min islands i :
  first_nearest islands p i ->
  i ∈ islands /\ forall j, j ∈ islands -> centreDist p i <= centreDist p j.
Proof.
  intros (l1 & l2 & -> & H1 & H2). split.
  - apply elem_of_app. right. apply elem_of_cons. left. reflexivity.
  - intros j Hj. apply elem_of_app in Hj as [Hj | Hj].
    + rewrite Forall_forall in H1. apply Rlt_le, H1, Hj.
    + apply elem_of_cons in Hj as [-> | Hj]; [lra|].
      rewrite Forall_forall in H2. apply H2, Hj.
Qed.

Lemma scan_snoc islands i :
  scan (islands ++ [i]) p = nearer p (scan islands p) i.
Proof. unfold scan. rewrite foldl_app. reflexivity. Qed.

(** The scan returns nothing on an empty registry, and otherwise the
    earliest island at the minimum distance, with that distance. *)
Lemma scan_spec islands :
  (islands = [] /\ scan islands p = (None, PInf)) \/
  (exists i, first_nearest islands p i /\
             scan islands p = (Some i, Fin (centreDist p i))).
Proof.
  induction islands as [|i l IH] using rev_ind.
  - left. split; reflexivity.
  - right. rewrite scan_snoc.
    destruct IH as [[-> E] | (j & (l1 & l2 & -> & H1 & H2) & E)]; rewrite E.
    + exists i. split; [|reflexivity].
      exists [], []. repeat split; constructor.
    + unfold nearer. simpl. case_decide as Hlt.
      * exists i. split; [|reflexivity].
        exists (l1 ++ j :: l2), []. split; [reflexivity|]. split; [|constructor].
        apply Forall_app. split; [|constructor].
        -- eapply Forall_impl; [exact H1|]. simpl. intros k Hk. lra.
        -- exact Hlt.
        -- eapply Forall_impl; [exact H2|]. simpl. intros k Hk. lra.
      * exists j. split; [|reflexivity].
        exists l1, (l2 ++ [i]). split; [rewrite <- app_assoc; reflexivity|].
        split; [exact H1|].
        apply Forall_app. split; [exact H2|].
        constructor; [lra | constructor].
Qed.

(** There is at most one earliest nearest island. *)
Lemma first_nearest_unique islands i j :
  first_nearest islands p i -> first_nearest islands p j -> i = j.
Proof.
  intros (a1 & a2 & Ea & Ha1 & Ha2) (b1 & b2 & Eb & Hb1 & Hb2).
  rewrite Ea in Eb. clear Ea. revert b1 Eb Hb1.
  induction a1 as [|k a1 IH]; intros b1 Eb Hb1.
  - destruct b1 as [|k b1]; simpl in Eb.
    + congruence.
    + injection Eb as <- Eb. apply Forall_cons in Hb1 as [Hlt _].
      assert (Hj : j ∈ a2)
        by (rewrite Eb; apply elem_of_app; right; apply elem_of_cons; left; reflexivity).
      rewrite Forall_forall in Ha2. specialize (Ha2 j Hj). lra.
  - destruct b1 as [|k' b1]; simpl in Eb.
    + injection Eb as -> Eb. apply Forall_cons in Ha1 as [Hlt _].
      assert (Hi : i ∈ b2)
        by (rewrite <- Eb; apply elem_of_app; right; apply elem_of_cons; left; reflexivity).
      rewrite Forall_forall in Hb2. specialize (Hb2 i Hi). lra.
    + injection Eb as <- Eb.
      apply Forall_cons in Ha1 as [_ Ha1]. apply Forall_cons in Hb1 as [_ Hb1].
      exact (IH Ha1 b1 Eb Hb1).
Qed.

Lemma scan_first_nearest islands i :
  first_nearest islands p i -> scan islands p = (Some i, Fin (centreDist p i)).
Proof.
  intros Hi. destruct (scan_spec islands) as [[-> _] | (j & Hj & E)].
  - destruct Hi as (l1 & l2 & E & _). destruct l1; discriminate E.
  - rewrite (first_nearest_unique islands i j Hi Hj). exact E.
Qed.

End Scan.

Lemma updateProximityUI_nearest islands w i :
  first_nearest islands (boat_position w) i ->
  updateProximityUI islands w =
    setProximity w (if decide (centreDist (boat_position w) i < radius i + 4)
                    then Some i else None).
Proof.
  intros Hi. unfold updateProximityUI.
  rewrite (scan_first_nearest _ _ _ Hi). simpl.
  case_decide; reflexivity.
Qed.

Lemma updateProximityUI_empty w :
  updateProximityUI [] w = setProximity w None.
Proof. reflexivity. Qed.

(** C4.  After [updateProximityUI] the active island is set exactly
    when the registry has a nearest island (the earliest one at the
    minimum distance over all islands) and the boat's horizontal
    distance to its centre is strictly below its radius + 4; the
    active island is then that island and the panel is shown for it.
    At distance exactly radius + 4, or beyond, the active island is
    cleared and [showSpeech(null)] is what the panel receives, which
    hides it when its DOM handles exist. *)
Theorem proximity_active islands w :
  let p := boat_position w in
  let w' := updateProximityUI islands w in
  (activeIsland w' <> None <->
     exists i, first_nearest islands p i /\ centreDist p i < radius i + 4) /\
  (forall i, first_nearest islands p i ->
     (i ∈ islands /\ forall j, j ∈ islands -> centreDist p i <= centreDist p j) /\
     (centreDist p i < radius i + 4 ->
        activeIsland w' = Some i /\ speech w' = showSpeech (Some i) (speech w)) /\
     (centreDist p i = radius i + 4 \/ centreDist p i > radius i + 4 ->
        activeIsland w' = None /\
        speech w' = showSpeech None (speech w) /\
        (handles (speech w) = true -> display (speech w') = "none"))).
Proof.
  intros p w'.
  assert (Hn : forall i, first_nearest islands p i ->
     (centreDist p i < radius i + 4 -> w' = setProximity w (Some i)) /\
     (~ centreDist p i < radius i + 4 -> w' = setProximity w None)).
  { intros i Hi. subst w'. rewrite (updateProximityUI_nearest islands w i Hi).
    fold p. split; intros H.
    - rewrite decide_True by exact H. reflexivity.
    - rewrite decide_False by exact H. reflexivity. }
  split.
  - split.
    + intros Ha. destruct (scan_spec p islands) as [[-> _] | (i & Hi & _)].
      * exfalso. apply Ha. reflexivity.
      * exists i. split; [exact Hi|].
        destruct (decide (centreDist p i < radius i + 4)) as [Hlt|Hge]; [exact Hlt|].
        exfalso. apply Ha. rewrite (proj2 (Hn i Hi) Hge). reflexivity.
    + intros (i & Hi & Hlt). rewrite (proj1 (Hn i Hi) Hlt). discriminate.
  - intros i Hi. split; [apply first_nearest_min; exact Hi|]. split.
    + intros Hlt. rewrite (proj1 (Hn i Hi) Hlt). split; reflexivity.
    + intros Hge. assert (Hnlt : ~ centreDist p i < radius i + 4) by lra.
      rewrite (proj2 (Hn i Hi) Hnlt).
      split; [reflexivity|]. split; [reflexivity|].
      intros Hh. simpl. unfold showSpeech. rewrite Hh. reflexivity.
Qed.

Lemma centreDist_isle_a : centreDist (mkVector3 0 0.35 0) isle_a = 10.
Proof.
  unfold centreDist, hypot. simpl.
  replace ((0 - 10) * (0 - 10) + (0 - 0) * (0 - 0)) with (10 * 10) by lra.
  apply sqrt_square. lra.
Qed.

Lemma centreDist_isle_b : centreDist (mkVector3 0 0.35 0) isle_b = 10.
Proof.
  unfold centreDist, hypot. simpl.
  replace ((0 - -10) * (0 - -10) + (0 - 0) * (0 - 0)) with (10 * 10) by lra.
  apply sqrt_square. lra.
Qed.

Lemma first_nearest_isle_a : first_nearest [isle_a; isle_b] (mkVector3 0 0.35 0) isle_a.
Proof.
  exists [], [isle_b]. split; [reflexivity|]. split; [constructor|].
  constructor; [|constructor].
  rewrite centreDist_isle_a, centreDist_isle_b. lra.
Qed.

(** At the boundary: the boat at exactly radius + 4 = 10 from the
    nearest island is not in reach. *)
Lemma proximity_active_witness :
  activeIsland (updateProximityUI [isle_a; isle_b] start_world) = None /\
  display (speech (updateProximityUI [isle_a; isle_b] start_world)) = "none".
Proof.
  destruct (proximity_active [isle_a; isle_b] start_world) as [_ H].
  destruct (H isle_a first_nearest_isle_a) as (_ & _ & Hb).
  destruct Hb as (Ha & _ & Hd).
  - left. change (boat_position start_world) with (mkVector3 0 0.35 0).
    rewrite centreDist_isle_a. simpl. lra.
  - split; [exact Ha | apply Hd; reflexivity].
Defined.

(** C7.  When two islands (or more) are at the same, minimum distance
    from the boat, the scan selects the one that comes first in the
    registry: with [a] before [b], both at the minimum distance, every
    island before [a] strictly farther and none nearer, [nearest] is [a];
    and if [a] is in reach it is [a] that becomes active. *)
Theorem nearest_tie_break (l1 l2 l3 : list Island) (a b : Island) (w : World) :
  let p := boat_position w in
  centreDist p a = centreDist p b ->
  Forall (λ j, centreDist p a < centreDist p j) l1 ->
  Forall (λ j, centreDist p a <= centreDist p j) (l2 ++ l3) ->
  scan (l1 ++ a :: l2 ++ b :: l3) p = (Some a, Fin (centreDist p a)) /\
  (centreDist p a < radius a + 4 ->
   activeIsland (updateProximityUI (l1 ++ a :: l2 ++ b :: l3) w) = Some a).
Proof.
  intros p Hab H1 H23.
  assert (Hfa : first_nearest (l1 ++ a :: l2 ++ b :: l3) p a).
  { exists l1, (l2 ++ b :: l3). split; [reflexivity|]. split; [exact H1|].
    apply Forall_app in H23 as [H2 H3].
    apply Forall_app. split; [exact H2|].
    constructor; [lra | exact H3]. }
  split.
  - apply scan_first_nearest. exact Hfa.
  - intros Hlt. rewrite (updateProximityUI_nearest _ w a Hfa).
    fold p. rewrite decide_True by exact Hlt. reflexivity.
Qed.

Lemma nearest_tie_break_witness :
  scan [isle_a; isle_b] (mkVector3 0 0.35 0) = (Some isle_a, Fin 10).
Proof.
  destruct (nearest_tie_break [] [] [] isle_a isle_b start_world) as [E _].
  - change (boat_position start_world) with (mkVector3 0 0.35 0).
    rewrite centreDist_isle_a, centreDist_isle_b. reflexivity.
  - constructor.
  - constructor.
  - simpl in E. change (boat_position start_world) with (mkVector3 0 0.35 0) in E.
    rewrite centreDist_isle_a in E. exact E.
Defined.

(* ===================================================================== *)
(** * Properties of the wake animator *)
(* ===================================================================== *)

Section Wake.

Lemma updateWake_fields delta w :
  wakePool (updateWake delta w) = ageSlot delta <$> (emission delta w).1 /\
  wakeTimer (updateWake delta w) = (emission delta w).2 /\
  boatSpeed (updateWake delta w) = boatSpeed w.
Proof.
  unfold updateWake. destruct (emission delta w) as [pool timer].
  repeat split.
Qed.

(** The emission writes to a slot that is not alive, and to no other. *)
Lemma emission_alive delta w i p :
  wakePool w !! i = Some p -> alive p = true ->
  (emission delta w).1 !! i = Some p.
Proof.
  intros Hi Ha. unfold emission.
  destruct (bool_decide (boatSpeed w > 1) && bool_decide (wakeTimer w + delta > 0.08));
    [|exact Hi].
  destruct (list_find _ _) as [[k slot]|] eqn:Hf; [|exact Hi]. simpl.
  apply list_find_Some in Hf as (Hk & Hdead & _).
  rewrite list_lookup_insert_ne; [exact Hi|].
  intros ->. rewrite Hi in Hk. injection Hk as ->. congruence.
Qed.

Lemma emission_full delta w :
  Forall (λ p, alive p = true) (wakePool w) ->
  (emission delta w).1 = wakePool w.
Proof.
  intros Hall. unfold emission.
  destruct (_ && _); [|reflexivity].
  destruct (list_find _ _) as [[k slot]|] eqn:Hf; [|reflexivity].
  apply list_find_Some in Hf as (Hk & Hdead & _).
  rewrite Forall_forall in Hall.
  specialize (Hall slot (list_elem_of_lookup_2 _ _ _ Hk)). congruence.
Qed.

Lemma emission_early delta w :
  wakeTimer w + delta <= 0.08 ->
  emission delta w = (wakePool w, wakeTimer w + delta).
Proof.
  intros Hle. unfold emission.
  rewrite (bool_decide_eq_false_2 (wakeTimer w + delta > 0.08)) by lra.
  rewrite andb_false_r. reflexivity.
Qed.

Lemma ageSlot_dead delta p : alive p = false -> ageSlot delta p = p.
Proof. intros Hd. unfold ageSlot. rewrite Hd. reflexivity. Qed.

Lemma updateWake_alive delta w i p :
  wakePool w !! i = Some p -> alive p = true ->
  wakePool (updateWake delta w) !! i = Some (ageSlot delta p).
Proof.
  intros Hi Ha. destruct (updateWake_fields delta w) as [-> _].
  rewrite list_lookup_fmap, (emission_alive delta w i p Hi Ha). reflexivity.
Qed.

End Wake.

(** C5.  A slot of the pool that is alive when the ageing pass of
    [updateWake] reaches it (alive at the call, or claimed by this
    call's emission) is aged by [delta]; with t = age / wakeLife for
    the new age:
    for t in [0, 1) the slot stays alive, its opacity becomes
    0.45 * (1 - t) and its scale 0.6 + 1.4 * t on the three axes, so
    the opacity is in (0, 0.45], strictly smaller for a larger t and 0
    for t = 1 in the formula, and the scale is in [0.6, 2.0), strictly
    larger for a larger t; for t >= 1 the slot is freed: not alive,
    hidden, and left as it is by every later ageing pass. *)
Theorem wake_decay delta w i p :
  (emission delta w).1 !! i = Some p ->
  alive p = true ->
  let t := (age p + delta) / wakeLife in
  let p' := ageSlot delta p in
  wakePool (updateWake delta w) !! i = Some p' /\
  age p' = age p + delta /\
  (0 <= t < 1 ->
     alive p' = true /\
     opacity (mesh p') = 0.45 * (1 - t) /\
     scale (mesh p') = setScalar (0.6 + 1.4 * t) /\
     0 < opacity (mesh p') <= 0.45 /\
     0.6 <= x (scale (mesh p')) < 2.0 /\
     (forall q d, alive q = true ->
        t < (age q + d) / wakeLife < 1 ->
        opacity (mesh (ageSlot d q)) < opacity (mesh p') /\
        x (scale (mesh p')) < x (scale (mesh (ageSlot d q))))) /\
  (t >= 1 ->
     alive p' = false /\ visible (mesh p') = false /\
     forall d, ageSlot d p' = p').
Proof.
  intros Hi Ha t p'.
  split.
  { destruct (updateWake_fields delta w) as [-> _].
    rewrite list_lookup_fmap, Hi. reflexivity. }
  assert (Hlive : forall q d, alive q = true -> ~ (age q + d) / wakeLife >= 1 ->
            alive (ageSlot d q) = true /\
            opacity (mesh (ageSlot d q)) = 0.45 * (1 - (age q + d) / wakeLife) /\
            scale (mesh (ageSlot d q)) = setScalar (0.6 + 1.4 * ((age q + d) / wakeLife))).
  { intros q d Hq Hlt. unfold ageSlot. rewrite Hq. simpl.
    rewrite decide_False by exact Hlt. simpl.
    split; [reflexivity|]. split; [reflexivity|]. f_equal. lra. }
  split; [|split].
  - subst p'. unfold ageSlot. rewrite Ha. simpl. case_decide; reflexivity.
  - intros [H0 H1].
    destruct (Hlive p delta Ha) as (Hal & Hop & Hsc); [fold t; lra|].
    fold t in Hop, Hsc. fold p' in Hal, Hop, Hsc.
    split; [exact Hal|]. split; [exact Hop|]. split; [exact Hsc|].
    rewrite Hop, Hsc. simpl.
    split; [lra|]. split; [lra|].
    intros q d Hq [Hq0 Hq1].
    destruct (Hlive q d Hq) as (_ & -> & ->); [lra|]. simpl. lra.
  - intros Hge. subst p'. unfold ageSlot at 1 2. rewrite Ha. simpl.
    rewrite decide_True by exact Hge. simpl.
    split; [reflexivity|]. split; [reflexivity|].
    intros d. apply ageSlot_dead.
    unfold ageSlot. rewrite Ha. simpl. rewrite decide_True by exact Hge. reflexivity.
Qed.

Lemma wake_decay_witness :
  alive (ageSlot 0.9 young_slot) = false /\
  visible (mesh (ageSlot 0.9 young_slot)) = false.
Proof.
  destruct (wake_decay 0.9 wake_world 0%nat young_slot
              (emission_alive 0.9 wake_world 0%nat young_slot eq_refl eq_refl) eq_refl)
    as (_ & _ & _ & Hfree).
  destruct Hfree as (Ha & Hv & _).
  - simpl. unfold wakeLife. lra.
  - split; [exact Ha | exact Hv].
Defined.

(** C9.  When the boat is faster than 1 and the timer, with [delta]
    added, is above 0.08, [updateWake] leaves the timer at 0 whether or
    not a slot was free.  With every slot alive nothing is emitted: the
    pool only ages.  The missed emission is not made up for: on the
    next tick nothing is emitted either unless that tick's [delta]
    alone is above 0.08. *)
Theorem wake_timer_reset delta w :
  boatSpeed w > 1 ->
  wakeTimer w + delta > 0.08 ->
  let w' := updateWake delta w in
  wakeTimer w' = 0 /\
  (Forall (λ p, alive p = true) (wakePool w) ->
     emission delta w = (wakePool w, 0) /\
     wakePool w' = ageSlot delta <$> wakePool w /\
     (forall delta2, delta2 <= 0.08 ->
        emission delta2 w' = (wakePool w', delta2))).
Proof.
  intros Hs Ht w'.
  assert (E2 : (emission delta w).2 = 0).
  { unfold emission. rewrite !bool_decide_eq_true_2 by assumption. reflexivity. }
  destruct (updateWake_fields delta w) as (Hp & Hti & _). fold w' in Hp, Hti.
  assert (Hz : wakeTimer w' = 0) by (rewrite Hti; exact E2).
  split; [exact Hz|].
  intros Hall.
  pose proof (emission_full delta w Hall) as E1.
  split; [|split].
  - destruct (emission delta w) as [pool timer]. simpl in E1, E2. congruence.
  - rewrite Hp, E1. reflexivity.
  - intros delta2 Hd.
    rewrite (emission_early delta2 w') by (rewrite Hz; lra).
    rewrite Hz. f_equal. lra.
Qed.

Lemma wake_timer_reset_witness :
  wakeTimer (updateWake 0.05 wake_world) = 0 /\
  wakePool (updateWake 0.05 wake_world) = [ageSlot 0.05 young_slot].
Proof.
  assert (Hs : boatSpeed wake_world > 1) by (simpl; lra).
  assert (Ht : wakeTimer wake_world + 0.05 > 0.08) by (simpl; lra).
  destruct (wake_timer_reset 0.05 wake_world Hs Ht) as [Hz Hfull].
  destruct Hfull as (_ & Hp & _).
  - repeat constructor.
  - split; [exact Hz | exact Hp].
Defined.

(* ===================================================================== *)
(** * Further properties of the boat controller *)
(* ===================================================================== *)

Section Input.

Lemma has_true (k : string) (ks : gset string) : k ∈ ks -> has ks k = true.
Proof. intros H. unfold has. apply bool_decide_eq_true_2, H. Qed.

Lemma has_false (k : string) (ks : gset string) : k ∉ ks -> has ks k = false.
Proof. intros H. unfold has. apply bool_decide_eq_false_2, H. Qed.

(** The forward axis is -1, 0 or 1. *)
Lemma forward_values ks : forward ks = -1 \/ forward ks = 0 \/ forward ks = 1.
Proof.
  unfold forward, axis.
  destruct (has ks "w" || has ks "arrowup"), (has ks "s" || has ks "arrowdown"); lra.
Qed.

Lemma boost_values ks : boost ks = 1 \/ boost ks = 1.4.
Proof. unfold boost. destruct (boosting ks); [right | left]; reflexivity. Qed.

(** With the forward axis at 0 the keys play no part in the speed. *)
Lemma inputSpeed_coast ks delta s :
  forward ks = 0 ->
  inputSpeed ks delta s
    = if decide (Rabs (s * damping) < 0.05) then 0 else s * damping.
Proof. intros Hf. unfold inputSpeed. rewrite decide_True by exact Hf. reflexivity. Qed.

Lemma inputSpeed_drive ks delta s :
  forward ks <> 0 ->
  inputSpeed ks delta s
    = clamp (s + forward ks * acceleration * delta * boost ks)
            (- maxSpeed * 0.5) (maxSpeed * boost ks).
Proof. intros Hf. unfold inputSpeed. rewrite decide_False by exact Hf. reflexivity. Qed.

End Input.

(** X1.  With the modal closed and exactly one of the two directions
    held, the speed [updateBoat] leaves is within
    [-maxSpeed * 0.5, maxSpeed * (boosting ? 1.4 : 1)] whatever the
    speed was before: a boost that ends with the forward key still held
    brings the speed down to [maxSpeed] on that very tick. *)
Theorem drive_bounds islands delta elapsed w :
  modalOpen w = false ->
  forward (keys w) <> 0 ->
  - maxSpeed * 0.5 <= boatSpeed (updateBoat islands delta elapsed w)
    <= maxSpeed * boost (keys w).
Proof.
  intros Hm Hf.
  destruct (updateBoat_closed islands delta elapsed w Hm) as [-> _].
  assert (Hb : - maxSpeed * 0.5 <= 0 <= maxSpeed * boost (keys w)).
  { unfold maxSpeed. destruct (boost_values (keys w)) as [-> | ->]; lra. }
  assert (Hi : - maxSpeed * 0.5 <= inputSpeed (keys w) delta (boatSpeed w)
               <= maxSpeed * boost (keys w)).
  { rewrite (inputSpeed_drive _ _ _ Hf). split.
    - apply clamp_lower.
    - apply clamp_upper. lra. }
  destruct (collisions_speed islands
              (tentative (boat_position w)
                 (inputHeading (keys w) delta
                    (inputSpeed (keys w) delta (boatSpeed w)) (boatHeading w))
                 (inputSpeed (keys w) delta (boatSpeed w)) delta,
               inputSpeed (keys w) delta (boatSpeed w))) as [-> | ->].
  - exact Hi.
  - exact Hb.
Qed.

Lemma forward_w : forward ({["w"]} : gset string) = 1.
Proof.
  unfold forward, axis.
  rewrite (has_true "w") by set_solver.
  rewrite (has_false "s"), (has_false "arrowdown") by set_solver.
  simpl. lra.
Qed.

Lemma boost_w : boost ({["w"]} : gset string) = 1.
Proof. unfold boost, boosting. rewrite has_false by set_solver. reflexivity. Qed.

Lemma drive_bounds_witness :
  boatSpeed (updateBoat registry 1 0 after_boost_world) <= 12.
Proof.
  destruct (drive_bounds registry 1 0 after_boost_world eq_refl) as [_ H].
  - change (keys after_boost_world) with ({["w"]} : gset string).
    rewrite forward_w. lra.
  - change (keys after_boost_world) with ({["w"]} : gset string) in H.
    rewrite boost_w in H. unfold maxSpeed in H. lra.
Defined.

(** X2.  A forward and a backward key held together cancel: the speed,
    heading and position [updateBoat] leaves are those it leaves with
    the four direction keys released, whatever else is held (the boost
    key included). *)
Theorem opposing_keys_cancel islands delta elapsed w :
  has (keys w) "w" || has (keys w) "arrowup" = true ->
  has (keys w) "s" || has (keys w) "arrowdown" = true ->
  let released := keys w ∖ {["w"; "arrowup"; "s"; "arrowdown"]} in
  let w1 := updateBoat islands delta elapsed w in
  let w2 := updateBoat islands delta elapsed (setKeys w released) in
  boatSpeed w1 = boatSpeed w2 /\
  boatHeading w1 = boatHeading w2 /\
  boat_position w1 = boat_position w2 /\
  boat_rotation_y w1 = boat_rotation_y w2.
Proof.
  intros Hfw Hbw released w1 w2.
  assert (Hf1 : forward (keys w) = 0).
  { unfold forward, axis. rewrite Hfw, Hbw. lra. }
  assert (Hf2 : forward released = 0).
  { apply forward_released; subst released; set_solver. }
  assert (Ht : turn released = turn (keys w)).
  { unfold turn, axis, has, released.
    assert (E : forall k : string,
              k ∉ ({["w"; "arrowup"; "s"; "arrowdown"]} : gset string) ->
              bool_decide (k ∈ keys w ∖ {["w"; "arrowup"; "s"; "arrowdown"]})
              = bool_decide (k ∈ keys w)).
    { intros k Hk. apply bool_decide_ext. set_solver. }
    rewrite !E by set_solver. reflexivity. }
  assert (Hs : forall s, inputSpeed released delta s = inputSpeed (keys w) delta s).
  { intros s. rewrite !inputSpeed_coast by assumption. reflexivity. }
  assert (Hh : forall s h, inputHeading released delta s h
                           = inputHeading (keys w) delta s h).
  { intros s h. unfold inputHeading. rewrite Ht. reflexivity. }
  subst w1 w2. unfold updateBoat. simpl.
  destruct (modalOpen w); simpl; [repeat split|].
  rewrite Hs, Hh.
  destruct (collisions islands _) as [p s]. simpl. repeat split.
Qed.

Lemma opposing_keys_cancel_witness :
  boatSpeed (updateBoat registry 1 0 tug_world)
  = boatSpeed (updateBoat registry 1 0
                 (setKeys tug_world
                    (keys tug_world ∖ {["w"; "arrowup"; "s"; "arrowdown"]}))).
Proof.
  destruct (opposing_keys_cancel registry 1 0 tug_world) as [H _].
  - apply orb_true_iff. left. apply has_true.
    change (keys tug_world) with ({["w"; "s"; "shift"]} : gset string). set_solver.
  - apply orb_true_iff. left. apply has_true.
    change (keys tug_world) with ({["w"; "s"; "shift"]} : gset string). set_solver.
  - exact H.
Defined.

Section Throttle.

Lemma forward_only (ks : gset string) :
  has ks "w" || has ks "arrowup" = true ->
  "s" ∉ ks -> "arrowdown" ∉ ks -> forward ks = 1.
Proof.
  intros Hf H1 H2. unfold forward, axis.
  rewrite Hf, (has_false "s"), (has_false "arrowdown") by assumption.
  simpl. lra.
Qed.

Lemma boost_off (ks : gset string) : "shift" ∉ ks -> boost ks = 1.
Proof. intros H. unfold boost, boosting. rewrite has_false by exact H. reflexivity. Qed.

(** Full ahead without boost, from a speed no lower than the reverse
    cap: the speed rises by [acceleration * delta], up to [maxSpeed]. *)
Lemma inputSpeed_ahead ks delta s :
  forward ks = 1 -> boost ks = 1 -> 0 <= delta -> - maxSpeed * 0.5 <= s ->
  inputSpeed ks delta s = Rmin (s + acceleration * delta) maxSpeed.
Proof.
  intros Hf Hb Hd Hs.
  rewrite inputSpeed_drive by (rewrite Hf; lra).
  rewrite Hf, Hb. unfold clamp, acceleration, maxSpeed in *.
  rewrite Rmax_right.
  - rewrite Rmin_comm. f_equal; lra.
  - apply Rmin_glb; lra.
Qed.

Lemma totalDelta_nonneg frames : Forall (λ f, 0 <= f.1) frames -> 0 <= totalDelta frames.
Proof. induction 1 as [|g r Hg _ IHr]; simpl; lra. Qed.

Lemma Rmin_again a d m : 0 <= d -> Rmin (Rmin a m + d) m = Rmin (a + d) m.
Proof.
  intros Hd. unfold Rmin.
  repeat destruct (Rle_dec _ _); lra.
Qed.

End Throttle.

(** Over the real numbers the increments of the frames add up. *)
Lemma throttle_sum frames w :
  has (keys w) "w" || has (keys w) "arrowup" = true ->
  "s" ∉ keys w -> "arrowdown" ∉ keys w -> "shift" ∉ keys w ->
  Forall (λ f, 0 <= f.1) frames ->
  - maxSpeed * 0.5 <= boatSpeed w <= maxSpeed ->
  boatSpeed (Minimal.ticks frames w)
    = Rmin (boatSpeed w + acceleration * totalDelta frames) maxSpeed.
Proof.
  intros Hfw Hs Ha Hsh Hpos. revert w Hfw Hs Ha Hsh.
  unfold Minimal.ticks.
  induction Hpos as [|f rest Hf Hrest IH]; intros w Hfw Hs Ha Hsh [Hlo Hhi]; simpl.
  - unfold maxSpeed, acceleration in *. rewrite Rmin_left; lra.
  - pose proof (forward_only (keys w) Hfw Hs Ha) as F1.
    pose proof (boost_off (keys w) Hsh) as B1.
    rewrite IH; simpl; try assumption.
    + rewrite (inputSpeed_ahead (keys w) f.1 (boatSpeed w) F1 B1 Hf Hlo).
      replace (boatSpeed w + acceleration * (f.1 + totalDelta rest))
        with (boatSpeed w + acceleration * f.1 + acceleration * totalDelta rest)
        by ring.
      apply Rmin_again.
      pose proof (totalDelta_nonneg rest Hrest). unfold acceleration. lra.
    + rewrite (inputSpeed_ahead (keys w) f.1 (boatSpeed w) F1 B1 Hf Hlo).
      unfold maxSpeed, acceleration in *. split; [apply Rmin_glb; lra | apply Rmin_r].
Qed.

(** X3.  In the minimal variant, with a forward key held, no backward
    key and no boost, from a speed within [-maxSpeed * 0.5, maxSpeed]:
    a frame with [delta >= 0] leaves the speed plus
    [acceleration * delta], capped at [maxSpeed]; over frames whose
    [delta]s are not negative the speed does not fall and does not
    pass [maxSpeed], and it is the starting speed plus [acceleration]
    times the time elapsed, capped at [maxSpeed], up to [slack] for
    each frame. *)
Theorem minimal_throttle frames w :
  has (keys w) "w" || has (keys w) "arrowup" = true ->
  "s" ∉ keys w -> "arrowdown" ∉ keys w -> "shift" ∉ keys w ->
  Forall (λ f, 0 <= f.1) frames ->
  - maxSpeed * 0.5 <= boatSpeed w <= maxSpeed ->
  let s := boatSpeed (Minimal.ticks frames w) in
  (forall delta elapsed, 0 <= delta ->
     boatSpeed (Minimal.updateBoat delta elapsed w)
       = Rmin (boatSpeed w + acceleration * delta) maxSpeed) /\
  boatSpeed w <= s <= maxSpeed /\
  Rabs (s - Rmin (boatSpeed w + acceleration * totalDelta frames) maxSpeed)
    <= slack * INR (List.length frames).
Proof.
  intros Hfw Hs Ha Hsh Hpos Hr s.
  pose proof (throttle_sum frames w Hfw Hs Ha Hsh Hpos Hr) as E. fold s in E.
  pose proof (totalDelta_nonneg frames Hpos) as Ht.
  split; [|split].
  - intros delta elapsed Hd. unfold Minimal.updateBoat. cbn [boatSpeed].
    apply inputSpeed_ahead;
      [apply forward_only; assumption | apply boost_off; assumption | exact Hd | lra].
  - rewrite E. unfold maxSpeed, acceleration in *. split.
    + apply Rmin_glb; lra.
    + apply Rmin_r.
  - rewrite E. replace (Rmin _ _ - Rmin _ _) with 0 by ring. rewrite Rabs_R0.
    apply Rmult_le_pos; [pose proof slack_pos; lra | apply pos_INR].
Qed.

(** Three half-second frames from rest reach [maxSpeed]. *)
Lemma minimal_throttle_witness :
  Rabs (boatSpeed (Minimal.ticks [(0.5, 0.5); (0.5, 1); (0.5, 1.5)] ahead_world) - 12)
    <= slack * 3 /\
  boatSpeed (Minimal.ticks [(0.5, 0.5); (0.5, 1); (0.5, 1.5)] ahead_world) <= 12.
Proof.
  destruct (minimal_throttle [(0.5, 0.5); (0.5, 1); (0.5, 1.5)] ahead_world)
    as (_ & [_ Hcap] & Hsum).
  - apply orb_true_iff. left. apply has_true.
    change (keys ahead_world) with ({["w"]} : gset string). set_solver.
  - change (keys ahead_world) with ({["w"]} : gset string). set_solver.
  - change (keys ahead_world) with ({["w"]} : gset string). set_solver.
  - change (keys ahead_world) with ({["w"]} : gset string). set_solver.
  - repeat constructor; simpl; lra.
  - unfold maxSpeed. simpl. lra.
  - split; [|exact Hcap].
    change (boatSpeed ahead_world) with 0 in Hsum.
    replace (Rmin (0 + acceleration * totalDelta [(0.5, 0.5); (0.5, 1); (0.5, 1.5)]) maxSpeed)
      with 12 in Hsum.
    + simpl in Hsum. replace (1 + 1 + 1) with 3 in Hsum by lra. exact Hsum.
    + simpl. unfold acceleration, maxSpeed. rewrite Rmin_right; lra.
Defined.

Lemma clamp_clamp v lo hi lo' hi' :
  lo <= lo' -> lo' <= hi' -> hi' <= hi ->
  clamp (clamp v lo hi) lo' hi' = clamp v lo' hi'.
Proof.
  intros H1 H2 H3. unfold clamp, Rmax, Rmin.
  repeat destruct (Rle_dec _ _); lra.
Qed.

(** X4.  The full variant with no island and the modal closed is the
    minimal variant on larger water: the two [updateBoat] leave the same
    speed, heading, visual rotation and height, and the minimal
    variant's x and z are the full variant's, clamped to the minimal
    variant's bounds. *)
Theorem minimal_agrees delta elapsed w :
  modalOpen w = false ->
  let full := updateBoat [] delta elapsed w in
  let small := Minimal.updateBoat delta elapsed w in
  boatSpeed small = boatSpeed full /\
  boatHeading small = boatHeading full /\
  boat_rotation_y small = boat_rotation_y full /\
  y (boat_position small) = y (boat_position full) /\
  x (boat_position small)
    = clamp (x (boat_position full)) (- Minimal.bounds) Minimal.bounds /\
  z (boat_position small)
    = clamp (z (boat_position full)) (- Minimal.bounds) Minimal.bounds.
Proof.
  intros Hm full small. subst full small.
  unfold updateBoat, Minimal.updateBoat. rewrite Hm. simpl.
  assert (Hb : Minimal.bounds = 54) by (unfold Minimal.bounds, Minimal.waterSize; lra).
  pose proof bounds_value as Hb'.
  repeat split; symmetry; apply clamp_clamp; lra.
Qed.

Lemma minimal_agrees_witness :
  boatSpeed (Minimal.updateBoat 1 0 ahead_world)
  = boatSpeed (updateBoat [] 1 0 ahead_world).
Proof.
  destruct (minimal_agrees 1 0 ahead_world eq_refl) as [H _]. exact H.
Defined.

Section Motion.

Lemma hypot_unit a : hypot (sin a) (cos a) = 1.
Proof.
  unfold hypot. pose proof (sin2_cos2 a) as H. unfold Rsqr in H.
  rewrite H. apply sqrt_1.
Qed.

Lemma hypot_scale_abs a b k : hypot (a * k) (b * k) = hypot a b * Rabs k.
Proof.
  destruct (Rle_lt_dec 0 k) as [Hk|Hk].
  - rewrite Rabs_right by lra. apply hypot_scale, Hk.
  - rewrite Rabs_left by lra.
    rewrite <- (hypot_opp (a * k) (b * k)).
    replace (- (a * k)) with (a * - k) by ring.
    replace (- (b * k)) with (b * - k) by ring.
    apply hypot_scale. lra.
Qed.

(** The tentative position is [|speed * delta|] away, horizontally. *)
Lemma tentative_distance pos heading speed delta :
  hypot (x (tentative pos heading speed delta) - x pos)
        (z (tentative pos heading speed delta) - z pos)
  = Rabs (speed * delta).
Proof.
  unfold tentative, addScaledVector. simpl.
  replace (x pos + sin heading * (speed * delta) - x pos)
    with (sin heading * (speed * delta)) by ring.
  replace (z pos + cos heading * (speed * delta) - z pos)
    with (cos heading * (speed * delta)) by ring.
  rewrite hypot_scale_abs, hypot_unit. ring.
Qed.

Lemma hypot_mono a b c d : Rabs a <= Rabs c -> Rabs b <= Rabs d -> hypot a b <= hypot c d.
Proof.
  intros Ha Hb. unfold hypot. apply sqrt_le_1; try apply sum_sqr_nonneg.
  assert (Ea : a * a <= c * c).
  { apply Rsqr_le_abs_1 in Ha. unfold Rsqr in Ha. exact Ha. }
  assert (Eb : b * b <= d * d).
  { apply Rsqr_le_abs_1 in Hb. unfold Rsqr in Hb. exact Hb. }
  lra.
Qed.

(** The clamp does not take a coordinate farther from a point inside
    the bounds. *)
Lemma clamp_nearer v c lo hi :
  lo <= c <= hi -> Rabs (clamp v lo hi - c) <= Rabs (v - c).
Proof.
  intros [H1 H2]. unfold clamp, Rmax, Rmin, Rabs.
  repeat destruct (Rle_dec _ _); repeat destruct (Rcase_abs _); lra.
Qed.

End Motion.

(** X5.  With the modal closed, from a position inside the world square
    and with the tentative position clear of every island, the speed
    the tick leaves is the speed after the input, and the boat moves
    horizontally by at most [|speed * delta|] on the tick, up to
    [slack]; when the tentative position is inside the square too, it
    moves by [|speed * delta|], up to [slack]. *)
Theorem tick_displacement islands delta elapsed w :
  modalOpen w = false ->
  - bounds <= x (boat_position w) <= bounds ->
  - bounds <= z (boat_position w) <= bounds ->
  let speed1 := inputSpeed (keys w) delta (boatSpeed w) in
  let heading := inputHeading (keys w) delta speed1 (boatHeading w) in
  let p0 := tentative (boat_position w) heading speed1 delta in
  Forall (λ j, minDist j <= centreDist p0 j) islands ->
  let w' := updateBoat islands delta elapsed w in
  let moved := hypot (x (boat_position w') - x (boat_position w))
                     (z (boat_position w') - z (boat_position w)) in
  boatSpeed w' = speed1 /\
  moved <= Rabs (boatSpeed w' * delta) + slack /\
  (- bounds <= x p0 <= bounds -> - bounds <= z p0 <= bounds ->
   Rabs (moved - Rabs (boatSpeed w' * delta)) <= slack).
Proof.
  intros Hm Hx Hz speed1 heading p0 Hclear w' moved.
  destruct (updateBoat_closed islands delta elapsed w Hm) as (Hs & _ & Ex & Ez).
  fold speed1 heading p0 w' in Hs, Ex, Ez.
  rewrite (collisions_outside islands p0 speed1 Hclear) in Hs, Ex, Ez.
  cbn [fst snd] in Hs, Ex, Ez.
  pose proof (tentative_distance (boat_position w) heading speed1 delta) as Hd.
  fold p0 in Hd. pose proof slack_pos as Hsl.
  split; [exact Hs|]. subst moved. rewrite Hs, Ex, Ez. split.
  - rewrite <- Hd. unfold clampBounds. cbn [x z].
    assert (hypot (clamp (x p0) (- bounds) bounds - x (boat_position w))
                  (clamp (z p0) (- bounds) bounds - z (boat_position w))
            <= hypot (x p0 - x (boat_position w)) (z p0 - z (boat_position w)))
      by (apply hypot_mono; apply clamp_nearer; assumption).
    lra.
  - intros Hx0 Hz0. unfold clampBounds. cbn [x z].
    rewrite !clamp_id by assumption. apply Rabs_slack. exact Hd.
Qed.

(** Half a second ahead from rest at the origin: the boat gains speed 6
    and is 3 from where it was. *)
Lemma tick_displacement_witness :
  boatSpeed (updateBoat [] 0.5 0 ahead_world) = 6 /\
  Rabs (hypot (x (boat_position (updateBoat [] 0.5 0 ahead_world)) - 0)
              (z (boat_position (updateBoat [] 0.5 0 ahead_world)) - 0)
        - 3) <= slack.
Proof.
  pose proof bounds_value as Hb.
  assert (Hk : keys ahead_world = {["w"]}) by reflexivity.
  assert (Hi : inputSpeed (keys ahead_world) 0.5 (boatSpeed ahead_world) = 6).
  { rewrite inputSpeed_ahead.
    - change (boatSpeed ahead_world) with 0. unfold acceleration, maxSpeed.
      rewrite Rmin_left; lra.
    - apply forward_only; rewrite Hk; [|set_solver|set_solver].
      apply orb_true_iff. left. apply has_true. set_solver.
    - apply boost_off. rewrite Hk. set_solver.
    - lra.
    - change (boatSpeed ahead_world) with 0. unfold maxSpeed. lra. }
  assert (Hh : inputHeading (keys ahead_world) 0.5 6 (boatHeading ahead_world) = PI).
  { unfold inputHeading. rewrite decide_True; [reflexivity|].
    unfold turn, axis. rewrite !has_false by (rewrite Hk; set_solver). simpl. lra. }
  destruct (tick_displacement [] 0.5 0 ahead_world eq_refl) as (Hs & _ & Hex).
  - simpl. lra.
  - simpl. lra.
  - constructor.
  - rewrite Hi in Hs. split; [exact Hs|].
    rewrite Hs in Hex. rewrite Hi, Hh in Hex.
    unfold tentative, addScaledVector in Hex.
    change (boat_position ahead_world) with (mkVector3 0 0.35 0) in Hex.
    cbn [x z] in Hex. rewrite sin_PI, cos_PI in Hex.
    replace (Rabs (6 * 0.5)) with 3 in Hex
      by (rewrite Rabs_right; lra).
    apply Hex; rewrite Hb; lra.
Defined.

(** X6.  A boat at rest stays where it is: with the modal closed, the
    forward axis at 0, speed 0, and a position inside the world square
    and clear of every island, [updateBoat] leaves x, z and the speed as
    they are, whatever [delta] and the turn keys are. *)
Theorem rest_is_stable islands delta elapsed w :
  modalOpen w = false ->
  forward (keys w) = 0 ->
  boatSpeed w = 0 ->
  - bounds <= x (boat_position w) <= bounds ->
  - bounds <= z (boat_position w) <= bounds ->
  Forall (λ j, minDist j <= centreDist (boat_position w) j) islands ->
  let w' := updateBoat islands delta elapsed w in
  x (boat_position w') = x (boat_position w) /\
  z (boat_position w') = z (boat_position w) /\
  boatSpeed w' = 0.
Proof.
  intros Hm Hf Hs Hx Hz Hclear w'.
  destruct (updateBoat_closed islands delta elapsed w Hm) as (Es & _ & Ex & Ez).
  fold w' in Es, Ex, Ez.
  assert (E0 : inputSpeed (keys w) delta (boatSpeed w) = 0).
  { rewrite (inputSpeed_coast _ _ _ Hf), Hs, decide_True; [reflexivity|].
    rewrite Rmult_0_l, Rabs_R0. lra. }
  rewrite E0, tentative_rest in Es, Ex, Ez.
  rewrite (collisions_outside islands _ 0 Hclear) in Es, Ex, Ez.
  cbn [fst snd] in Es, Ex, Ez. unfold clampBounds in Ex, Ez. cbn [x z] in Ex, Ez.
  rewrite clamp_id in Ex by assumption. rewrite clamp_id in Ez by assumption.
  repeat split; assumption.
Qed.

(** The origin, where the boat starts, is clear of the registry. *)
Lemma origin_clear :
  Forall (λ j, minDist j <= centreDist (mkVector3 0 0.35 0) j) registry.
Proof.
  unfold registry. each_island;
    unfold minDist, boatRadius, centreDist; simpl; apply hypot_lower; lra.
Qed.

Lemma rest_is_stable_witness :
  x (boat_position (updateBoat registry 1 0 start_world)) = 0 /\
  z (boat_position (updateBoat registry 1 0 start_world)) = 0.
Proof.
  pose proof bounds_value as Hb.
  destruct (rest_is_stable registry 1 0 start_world eq_refl) as (Hx & Hz & _).
  - apply forward_released; apply not_elem_of_empty.
  - reflexivity.
  - simpl. lra.
  - simpl. lra.
  - exact origin_clear.
  - split; [exact Hx | exact Hz].
Defined.

Section HardStop.

Lemma collisions_cons i rest ps :
  collisions (i :: rest) ps = collisions rest (collide ps i).
Proof. reflexivity. Qed.

Lemma collisions_stopped islands p :
  (collisions islands (p, 0)).2 = 0.
Proof.
  destruct (collisions_speed islands (p, 0)) as [E|E]; exact E.
Qed.

(** Whatever the registry, a position strictly inside the exclusion
    disc of some island leaves the loop with speed 0. *)
Lemma collisions_hit islands : forall p s,
  Exists (λ i, centreDist p i < minDist i) islands ->
  (collisions islands (p, s)).2 = 0.
Proof.
  induction islands as [|i rest IH]; intros p s Hex.
  - inversion Hex.
  - rewrite collisions_cons.
    destruct (decide (centreDist p i < minDist i)) as [Hlt|Hge].
    + rewrite (collide_push p s i Hlt). apply collisions_stopped.
    + rewrite collide_far by lra. apply IH.
      inversion Hex as [? ? Hhead | ? ? Htail]; subst; [contradiction | exact Htail].
Qed.

(** After the callback has run for [j], the position is clear of [j],
    or on its centre. *)
Lemma collide_clear p s j :
  minDist j <= centreDist (collide (p, s) j).1 j \/
  centreDist (collide (p, s) j).1 j = 0.
Proof.
  destruct (decide (centreDist p j < minDist j)) as [Hlt|Hge].
  - rewrite (collide_push p s j Hlt). cbn [fst].
    destruct (decide (centreDist p j = 0)) as [Hz|Hnz].
    + right. destruct (pushed_centre p j Hz) as [Ex Ez].
      unfold centreDist. rewrite Ex, Ez.
      unfold hypot. replace (_ + _) with 0 by ring. apply sqrt_0.
    + left. rewrite (pushed_dist p j Hnz Hlt). lra.
  - rewrite collide_far by lra. left. cbn [fst]. lra.
Qed.

End HardStop.

(** C3.  With the modal closed and no forward or backward key held, the
    speed is multiplied by [damping] and then replaced by 0 when its
    absolute value is below 0.05.  That value is the speed [updateBoat]
    leaves when the tentative position is clear of every island; when
    it is inside the exclusion disc of some island the speed left is 0.
    So a nonzero speed gets strictly smaller in absolute value, a speed
    below the threshold (before or after the multiplication) becomes
    exactly 0, and 0 stays 0. *)
Theorem no_input_decay islands delta elapsed w :
  modalOpen w = false ->
  "w" ∉ keys w -> "arrowup" ∉ keys w -> "s" ∉ keys w -> "arrowdown" ∉ keys w ->
  let s := boatSpeed w in
  let speed1 := inputSpeed (keys w) delta s in
  let heading := inputHeading (keys w) delta speed1 (boatHeading w) in
  let p0 := tentative (boat_position w) heading speed1 delta in
  let s' := boatSpeed (updateBoat islands delta elapsed w) in
  speed1 = (if decide (Rabs (s * damping) < 0.05) then 0 else s * damping) /\
  (Forall (λ j, radius j + boatRadius <= centreDist p0 j) islands ->
   s' = (if decide (Rabs (s * damping) < 0.05) then 0 else s * damping)) /\
  (forall j, j ∈ islands -> centreDist p0 j < radius j + boatRadius -> s' = 0) /\
  (s' = speed1 \/ s' = 0) /\
  (s <> 0 -> Rabs s' < Rabs s) /\
  (Rabs (s * damping) < 0.05 -> s' = 0) /\
  (Rabs s < 0.05 -> s' = 0) /\
  (s = 0 -> s' = 0).
Proof.
  intros Hm H1 H2 H3 H4 s speed1 heading p0 s'.
  pose proof (forward_released (keys w) H1 H2 H3 H4) as Hf.
  assert (Hi : speed1 = if decide (Rabs (s * damping) < 0.05) then 0 else s * damping).
  { unfold speed1, inputSpeed. rewrite decide_True by exact Hf. reflexivity. }
  assert (Hs : s' = (collisions islands (p0, speed1)).2).
  { subst s'. destruct (updateBoat_closed islands delta elapsed w Hm) as [-> _].
    reflexivity. }
  assert (Hs' : s' = speed1 \/ s' = 0).
  { rewrite Hs. apply (collisions_speed islands (p0, speed1)). }
  assert (Hsnap : Rabs (s * damping) < 0.05 -> s' = 0).
  { intros Hlt. destruct Hs' as [E|E]; [|exact E].
    rewrite E, Hi. rewrite decide_True by exact Hlt. reflexivity. }
  split; [exact Hi|]. split; [|split; [|split; [exact Hs'|]]].
  - intros Hclear. rewrite Hs, collisions_outside; [exact Hi | exact Hclear].
  - intros j Hj Hlt. rewrite Hs. apply collisions_hit.
    apply Exists_exists. exists j. split; [exact Hj | exact Hlt].
  - split; [|split; [exact Hsnap|split]].
    + intros Hnz.
      assert (H0 : Rabs 0 < Rabs s) by (rewrite Rabs_R0; apply Rabs_pos_lt; exact Hnz).
      destruct Hs' as [E|E]; rewrite E; [|exact H0].
      rewrite Hi. case_decide; [exact H0 | apply damped_smaller; exact Hnz].
    + intros Hlt. apply Hsnap.
      destruct (Req_dec s 0) as [Hz|Hnz].
      * rewrite Hz, Rmult_0_l, Rabs_R0. lra.
      * pose proof (damped_smaller s Hnz). lra.
    + intros Hz. apply Hsnap. rewrite Hz, Rmult_0_l, Rabs_R0. lra.
Qed.

(** A boat coasting at 5 in the open water of the registry is left at
    5 * 0.96, with the snap not taken and no island touched. *)
Lemma no_input_decay_witness :
  boatSpeed (updateBoat registry 1 0 coasting_world) = 5 * damping.
Proof.
  pose proof (no_input_decay registry 1 0 coasting_world eq_refl) as H.
  cbv zeta in H.
  change (keys coasting_world) with (∅ : gset string) in H.
  change (boatSpeed coasting_world) with 5 in H.
  change (boatHeading coasting_world) with 0 in H.
  change (boat_position coasting_world) with (mkVector3 0 0.35 0) in H.
  assert (Hbig : ~ Rabs (5 * damping) < 0.05).
  { unfold damping, Rabs. destruct (Rcase_abs _); lra. }
  destruct H as (Hi & Hclear & _); try (apply not_elem_of_empty).
  rewrite decide_False in Hi, Hclear by exact Hbig.
  apply Hclear. rewrite Hi.
  assert (Hh : inputHeading ∅ 1 (5 * damping) 0 = 0).
  { unfold inputHeading. rewrite decide_True; [reflexivity|].
    unfold turn, axis, has. rewrite !bool_decide_eq_false_2 by apply not_elem_of_empty.
    simpl. lra. }
  rewrite Hh. unfold tentative, addScaledVector, centreDist. cbn [x y z].
  rewrite sin_0, cos_0. unfold registry, damping, boatRadius.
  each_island; cbn [radius position x z]; apply hypot_lower; lra.
Defined.

(** X7.  The stop is unconditional: with the modal closed and any
    registry, overlapping islands included, a tentative position
    strictly nearer than radius + boatRadius to the centre of some
    island leaves the speed at 0. *)
Theorem collision_stops islands delta elapsed w i :
  modalOpen w = false ->
  i ∈ islands ->
  let speed1 := inputSpeed (keys w) delta (boatSpeed w) in
  let heading := inputHeading (keys w) delta speed1 (boatHeading w) in
  let p0 := tentative (boat_position w) heading speed1 delta in
  centreDist p0 i < radius i + boatRadius ->
  boatSpeed (updateBoat islands delta elapsed w) = 0.
Proof.
  intros Hm Hi speed1 heading p0 Hlt.
  destruct (updateBoat_closed islands delta elapsed w Hm) as (-> & _).
  apply collisions_hit. apply Exists_exists. exists i. split; [exact Hi | exact Hlt].
Qed.

Lemma collision_stops_witness :
  boatSpeed (updateBoat [west; east] 1 0 between_world) = 0.
Proof.
  apply (collision_stops [west; east] 1 0 between_world west eq_refl).
  - apply elem_of_cons. left. reflexivity.
  - change (keys between_world) with (∅ : gset string).
    change (boatSpeed between_world) with 0.
    rewrite inputSpeed_rest, tentative_rest.
    destruct (axis_east (boat_position between_world) west) as (-> & _);
      [reflexivity | simpl; lra |].
    unfold boatRadius. simpl. lra.
Defined.

(** X8.  The last island of the registry wins: with the modal closed
    and the exclusion disc of the last island inside the world square,
    whatever the other islands are, the committed position is at least
    radius + boatRadius from the centre of the last island, up to
    [slack], unless the islands before it left the boat within [slack]
    of that centre. *)
Theorem last_island_wins islands j delta elapsed w :
  modalOpen w = false ->
  inWorld j ->
  let speed1 := inputSpeed (keys w) delta (boatSpeed w) in
  let heading := inputHeading (keys w) delta speed1 (boatHeading w) in
  let p0 := tentative (boat_position w) heading speed1 delta in
  let q := (collisions islands (p0, speed1)).1 in
  slack <= centreDist q j ->
  let w' := updateBoat (islands ++ [j]) delta elapsed w in
  radius j + boatRadius - slack <= centreDist (boat_position w') j.
Proof.
  intros Hm Hin speed1 heading p0 q Hq w'.
  pose proof slack_pos as Hsl.
  destruct (updateBoat_closed (islands ++ [j]) delta elapsed w Hm) as (_ & _ & Ex & Ez).
  fold speed1 heading p0 w' in Ex, Ez.
  rewrite (centreDist_xz _ _ j Ex Ez).
  rewrite collisions_app. subst q.
  destruct (collisions islands (p0, speed1)) as [q s]. cbn [fst] in Hq.
  change (collisions [j] (q, s)) with (collide (q, s) j).
  assert (Hout : minDist j <= centreDist (collide (q, s) j).1 j).
  { destruct (decide (centreDist q j < minDist j)) as [Hlt|Hge].
    - rewrite (collide_push q s j Hlt). cbn [fst].
      rewrite pushed_dist; [lra | lra | exact Hlt].
    - rewrite collide_far by lra. cbn [fst]. lra. }
  pose proof (clampBounds_outside _ j Hin Hout) as Hc.
  unfold minDist in Hc. lra.
Qed.

(** Between [west] and [east] the boat is pushed out of [west] first,
    and then out of [east], the last: it ends clear of [east]. *)
Lemma last_island_wins_witness :
  radius east + boatRadius - slack
    <= centreDist (boat_position (updateBoat ([west] ++ [east]) 1 0 between_world)) east.
Proof.
  apply (last_island_wins [west] east 1 0 between_world eq_refl).
  - unfold inWorld, minDist, boatRadius. rewrite bounds_value. simpl.
    unfold Rabs. repeat destruct (Rcase_abs _); lra.
  - change (keys between_world) with (∅ : gset string).
    change (boatSpeed between_world) with 0.
    rewrite inputSpeed_rest, tentative_rest.
    change (boat_position between_world) with (mkVector3 5 0.35 0).
    set (p0 := mkVector3 5 0.35 0).
    destruct (axis_east p0 west) as (D1 & X1 & Z1); [reflexivity | simpl; lra |].
    change (collisions [west] (p0, 0)) with (collide (p0, 0) west).
    rewrite collide_push
      by (rewrite D1; unfold minDist, boatRadius; simpl; lra).
    cbn [fst].
    destruct (axis_west (pushed p0 west) east) as (D2 & _).
    + rewrite Z1. reflexivity.
    + rewrite X1. unfold minDist, boatRadius. simpl. lra.
    + rewrite D2, X1. unfold minDist, boatRadius, slack. simpl. lra.
Defined.

(* ===================================================================== *)
(** * Properties of a frame *)
(* ===================================================================== *)

Section Frame.

Lemma updateWake_boat delta w :
  keys (updateWake delta w) = keys w /\
  boatSpeed (updateWake delta w) = boatSpeed w /\
  boatHeading (updateWake delta w) = boatHeading w /\
  boat_position (updateWake delta w) = boat_position w /\
  modalOpen (updateWake delta w) = modalOpen w /\
  activeIsland (updateWake delta w) = activeIsland w /\
  speech (updateWake delta w) = speech w.
Proof.
  unfold updateWake. destruct (emission delta w) as [pool timer]. repeat split.
Qed.

Lemma updateProximityUI_boat islands w :
  keys (updateProximityUI islands w) = keys w /\
  boatSpeed (updateProximityUI islands w) = boatSpeed w /\
  boatHeading (updateProximityUI islands w) = boatHeading w /\
  boat_position (updateProximityUI islands w) = boat_position w /\
  modalOpen (updateProximityUI islands w) = modalOpen w /\
  wakePool (updateProximityUI islands w) = wakePool w /\
  wakeTimer (updateProximityUI islands w) = wakeTimer w.
Proof.
  unfold updateProximityUI.
  destruct (scan islands (boat_position w)) as [[i|] d]; [case_decide|];
    repeat split.
Qed.

Lemma scan_xz islands p q : x p = x q -> z p = z q -> scan islands p = scan islands q.
Proof.
  intros Hx Hz. unfold scan. generalize (@None Island, PInf).
  induction islands as [|i rest IH]; intros acc; [reflexivity|].
  simpl. unfold nearer at 2 4. rewrite (centreDist_xz p q i Hx Hz). apply IH.
Qed.

(** The active island is read off the position alone. *)
Lemma activeIsland_xz islands w1 w2 :
  x (boat_position w1) = x (boat_position w2) ->
  z (boat_position w1) = z (boat_position w2) ->
  activeIsland (updateProximityUI islands w1) = activeIsland (updateProximityUI islands w2).
Proof.
  intros Hx Hz. unfold updateProximityUI.
  rewrite (scan_xz islands _ _ Hx Hz).
  destruct (scan islands (boat_position w2)) as [[i|] d]; [case_decide|]; reflexivity.
Qed.

Lemma animate_boat islands delta elapsed w :
  let w' := animate islands delta elapsed w in
  keys w' = keys w /\
  boatSpeed w' = boatSpeed (updateBoat islands delta elapsed w) /\
  boatHeading w' = boatHeading (updateBoat islands delta elapsed w) /\
  boat_position w' = boat_position (updateBoat islands delta elapsed w) /\
  modalOpen w' = modalOpen w.
Proof.
  unfold animate. simpl.
  destruct (updateProximityUI_boat islands
              (updateWake delta (updateBoat islands delta elapsed w)))
    as (-> & -> & -> & -> & -> & _).
  destruct (updateWake_boat delta (updateBoat islands delta elapsed w))
    as (-> & -> & -> & -> & -> & _).
  unfold updateBoat. destruct (modalOpen w) eqn:Hm; simpl.
  - repeat split.
  - destruct (collisions islands _) as [p s]. simpl. repeat split.
Qed.

(** Looking again from the same place finds the same island. *)
Lemma proximity_again islands u :
  activeIsland (updateProximityUI islands (updateProximityUI islands u))
  = activeIsland (updateProximityUI islands u).
Proof.
  apply activeIsland_xz;
    destruct (updateProximityUI_boat islands u) as (_ & _ & _ & -> & _); reflexivity.
Qed.

(** In a registry with no overlap, the one island whose disc holds the
    position is the one it is pushed out of. *)
Lemma collisions_single islands p s i :
  separated islands -> i ∈ islands ->
  centreDist p i < minDist i -> centreDist p i <> 0 ->
  collisions islands (p, s) = (pushed p i, 0) /\
  Forall (λ j, minDist j <= centreDist (pushed p i) j) islands.
Proof.
  intros Hsep Hi Hlt Hnz.
  destruct (collisions_resolved islands p s Hsep)
    as [[Hall _] | (l1 & k & l2 & El & Hk & Hothers & _ & Hres)].
  - rewrite Forall_forall in Hall. specialize (Hall i Hi). simpl in Hall. lra.
  - assert (i = k) as ->.
    { rewrite Forall_forall in Hothers.
      rewrite El in Hi. apply elem_of_app in Hi as [Hi | Hi].
      - assert (Hi' : i ∈ l1 ++ l2) by (apply elem_of_app; left; exact Hi).
        specialize (Hothers i Hi'). simpl in Hothers. lra.
      - apply elem_of_cons in Hi as [-> | Hi]; [reflexivity|].
        assert (Hi' : i ∈ l1 ++ l2) by (apply elem_of_app; right; exact Hi).
        specialize (Hothers i Hi'). simpl in Hothers. lra. }
    apply Hres, Hnz.
Qed.

End Frame.

(** X9.  Running into an island brings up its prompt in the same frame.
    Take a registry with no two exclusion discs overlapping, an island
    [i] of it whose disc is inside the world square and whose centre is
    more than twice its radius + boatRadius from every other centre,
    and a tentative position strictly inside the disc of [i] and off its
    centre.  With the modal closed, [animate] leaves [i] active, the
    speed at 0, and, when the panel's handles exist, the panel shown
    with the name of the biome of [i]. *)
Theorem bump_prompts islands delta elapsed w i :
  modalOpen w = false ->
  separated islands ->
  i ∈ islands ->
  inWorld i ->
  (forall j, j ∈ islands -> j <> i ->
     2 * (radius i + boatRadius)
       < hypot (x (position i) - x (position j)) (z (position i) - z (position j))) ->
  let speed1 := inputSpeed (keys w) delta (boatSpeed w) in
  let heading := inputHeading (keys w) delta speed1 (boatHeading w) in
  let p0 := tentative (boat_position w) heading speed1 delta in
  centreDist p0 i <> 0 ->
  centreDist p0 i < radius i + boatRadius ->
  let w' := animate islands delta elapsed w in
  activeIsland w' = Some i /\
  boatSpeed w' = 0 /\
  (handles (speech w) = true ->
   display (speech w') = "flex" /\ title (speech w') = name (biome i)).
Proof.
  intros Hm Hsep Hi Hin Hroomy speed1 heading p0 Hnz Hlt w'.
  destruct (collisions_single islands p0 speed1 i Hsep Hi Hlt Hnz) as [E _].
  destruct (updateBoat_closed islands delta elapsed w Hm) as (Es & _ & Ex & Ez).
  fold speed1 heading p0 in Es, Ex, Ez. rewrite E in Es, Ex, Ez.
  cbn [fst snd] in Es, Ex, Ez.
  pose proof (pushed_dist p0 i Hnz Hlt) as Hd.
  destruct (clampBounds_inside (pushed p0 i) i Hin) as [Cx Cz]; [lra|].
  rewrite Cx in Ex. rewrite Cz in Ez.
  set (w1 := updateWake delta (updateBoat islands delta elapsed w)).
  destruct (updateWake_boat delta (updateBoat islands delta elapsed w))
    as (_ & Ws & _ & Wp & _ & _ & Wsp).
  fold w1 in Ws, Wp, Wsp.
  assert (Hdist : centreDist (boat_position w1) i = minDist i).
  { rewrite Wp, (centreDist_xz _ (pushed p0 i) i Ex Ez). exact Hd. }
  assert (Hfirst : first_nearest islands (boat_position w1) i).
  { destruct (scan_spec (boat_position w1) islands) as [[-> _] | (k & Hk & _)].
    - apply elem_of_nil in Hi. contradiction.
    - destruct (decide (k = i)) as [-> | Hne]; [exact Hk|].
      exfalso.
      destruct (first_nearest_min _ _ _ Hk) as [Hkin Hmin].
      specialize (Hmin i Hi).
      pose proof (Hroomy k Hkin Hne) as Hfar.
      pose proof (centre_triangle (boat_position w1) i k) as Ht.
      unfold minDist in Hdist. lra. }
  subst w'. unfold animate. fold w1.
  rewrite (updateProximityUI_nearest islands w1 i Hfirst).
  rewrite decide_True by (rewrite Hdist; unfold minDist, boatRadius; lra).
  simpl. split; [reflexivity|]. split; [rewrite Ws; exact Es|].
  intros Hh. rewrite Wsp. unfold showSpeech.
  assert (Hh' : handles (speech (updateBoat islands delta elapsed w)) = true).
  { unfold updateBoat. rewrite Hm. destruct (collisions islands _). exact Hh. }
  rewrite Hh'. simpl. split; reflexivity.
Qed.

Lemma bump_prompts_witness :
  activeIsland (animate registry 1 0 approach_world) = Some first_island /\
  boatSpeed (animate registry 1 0 approach_world) = 0 /\
  title (speech (animate registry 1 0 approach_world)) = "Tropical Cay".
Proof.
  assert (Hin : first_island ∈ registry) by (apply elem_of_cons; left; reflexivity).
  assert (Hw : inWorld first_island).
  { pose proof registry_inWorld as H. rewrite Forall_forall in H. apply H, Hin. }
  pose proof (bump_prompts registry 1 0 approach_world first_island eq_refl
                registry_separated Hin Hw) as H.
  cbv zeta in H.
  change (keys approach_world) with (∅ : gset string) in H.
  change (boatSpeed approach_world) with 0 in H.
  rewrite inputSpeed_rest, tentative_rest in H.
  destruct (axis_east (boat_position approach_world) first_island) as (Hd & _);
    [reflexivity | simpl; lra |].
  rewrite Hd in H.
  destruct H as (Ha & Hs & Hp).
  - intros j Hj Hne. unfold registry in Hj.
    apply elem_of_cons in Hj as [-> | Hj]; [contradiction Hne; reflexivity|].
    repeat (apply elem_of_cons in Hj as [-> | Hj];
            [unfold boatRadius; simpl;
             apply Rlt_le_trans with 19; [lra | apply hypot_lower; lra]|]).
    apply elem_of_nil in Hj. contradiction.
  - simpl. lra.
  - unfold boatRadius. simpl. lra.
  - split; [exact Ha|]. split; [exact Hs|]. apply Hp. reflexivity.
Defined.

(** X10.  While the modal is open the frames freeze the boat: after any
    number of frames the position and the heading are those before the
    first of them, the modal is still open, and the active island is
    the one the first of the frames found. *)
Theorem modal_freezes islands frames delta elapsed w :
  modalOpen w = true ->
  let w1 := animate islands delta elapsed w in
  let wn := play islands frames w1 in
  boat_position wn = boat_position w /\
  boatHeading wn = boatHeading w /\
  modalOpen wn = true /\
  activeIsland wn = activeIsland w1.
Proof.
  intros Hm w1 wn.
  assert (Hstep : forall d e v, modalOpen v = true ->
            boat_position (animate islands d e v) = boat_position v /\
            boatHeading (animate islands d e v) = boatHeading v /\
            modalOpen (animate islands d e v) = true).
  { intros d e v Hv. destruct (animate_boat islands d e v) as (_ & _ & -> & -> & ->).
    rewrite (updateBoat_open islands d e v Hv). repeat split. exact Hv. }
  assert (Hactive : forall d e v,
            activeIsland (animate islands d e v)
            = activeIsland (updateProximityUI islands
                 (updateBoat islands d e v))).
  { intros d e v. unfold animate. apply activeIsland_xz;
      destruct (updateWake_boat d (updateBoat islands d e v))
        as (_ & _ & _ & -> & _); reflexivity. }
  assert (Hrun : forall fs v, modalOpen v = true ->
            activeIsland (updateProximityUI islands v) = activeIsland v ->
            boat_position (play islands fs v) = boat_position v /\
            boatHeading (play islands fs v) = boatHeading v /\
            modalOpen (play islands fs v) = true /\
            activeIsland (play islands fs v) = activeIsland v).
  { unfold play. induction fs as [|f rest IH]; intros v Hv Hfixed; simpl.
    - repeat split. exact Hv.
    - destruct (Hstep f.1 f.2 v Hv) as (P & H & M).
      assert (A : activeIsland (animate islands f.1 f.2 v) = activeIsland v).
      { rewrite Hactive, <- Hfixed. apply activeIsland_xz;
          rewrite (updateBoat_open islands f.1 f.2 v Hv); reflexivity. }
      destruct (IH (animate islands f.1 f.2 v) M) as (IP & IHd & IM & IA).
      + unfold animate. apply proximity_again.
      + rewrite IP, IHd, IM, IA, P, H, A. repeat split. }
  destruct (Hstep delta elapsed w Hm) as (P1 & H1 & M1). fold w1 in P1, H1, M1.
  destruct (Hrun frames w1 M1) as (P & H & M & A).
  - subst w1. unfold animate. apply proximity_again.
  - subst wn. rewrite P, H, M, A, P1, H1. repeat split.
Qed.

Lemma modal_freezes_witness :
  boat_position (play registry [(1, 1); (1, 2)] (animate registry 1 0 modal_world))
  = mkVector3 (-24) 0.35 (-6).
Proof.
  destruct (modal_freezes registry [(1, 1); (1, 2)] 1 0 modal_world eq_refl)
    as (H & _).
  exact H.
Defined.

(* ===================================================================== *)
(** * Further properties of the wake animator *)
(* ===================================================================== *)

Section Pool.

(** The ageing pass revives nothing. *)
Lemma ageSlot_alive delta q : alive (ageSlot delta q) = true -> alive q = true.
Proof.
  unfold ageSlot. destruct (alive q) eqn:E; simpl; [reflexivity|].
  rewrite E. intros H. exact H.
Qed.

(** What the ageing pass leaves of a slot that is still alive. *)
Lemma ageSlot_survivor delta q :
  alive (ageSlot delta q) = true ->
  age (ageSlot delta q) = age q + delta /\
  age q + delta < wakeLife /\
  opacity (mesh (ageSlot delta q)) = 0.45 * (1 - (age q + delta) / wakeLife) /\
  scale (mesh (ageSlot delta q)) = setScalar (0.6 + (age q + delta) / wakeLife * 1.4) /\
  mesh_position (mesh (ageSlot delta q)) = mesh_position (mesh q) /\
  visible (mesh (ageSlot delta q)) = visible (mesh q).
Proof.
  intros Ha. pose proof (ageSlot_alive delta q Ha) as Hq.
  revert Ha. unfold ageSlot. rewrite Hq. simpl.
  case_decide as Ht; simpl; [discriminate|]. intros _.
  repeat split. unfold wakeLife in *. lra.
Qed.

Lemma updateWake_lookup delta w i p' :
  wakePool (updateWake delta w) !! i = Some p' ->
  exists q, (emission delta w).1 !! i = Some q /\ p' = ageSlot delta q.
Proof.
  destruct (updateWake_fields delta w) as [-> _].
  rewrite list_lookup_fmap. intros H.
  destruct ((emission delta w).1 !! i) as [q|]; [|discriminate].
  exists q. split; [reflexivity|]. simpl in H. congruence.
Qed.

(** The pool after the emission, slot by slot: the first slot that is
    not alive holds the new particle when the boat is fast enough and
    the timer has run, and every other slot is as it was. *)
Lemma emission_lookup delta w i q :
  (emission delta w).1 !! i = Some q ->
  wakePool w !! i = Some q \/
  (boatSpeed w > 1 /\ wakeTimer w + delta > 0.08 /\
   exists slot, list_find (λ p, alive p = false) (wakePool w) = Some (i, slot) /\
                q = emit w slot).
Proof.
  unfold emission.
  destruct (bool_decide (boatSpeed w > 1)) eqn:Hs; simpl; [|left; assumption].
  destruct (bool_decide (wakeTimer w + delta > 0.08)) eqn:Ht; simpl; [|left; assumption].
  apply bool_decide_eq_true_1 in Hs. apply bool_decide_eq_true_1 in Ht.
  destruct (list_find _ _) as [[k slot]|] eqn:Hf; simpl; [|left; assumption].
  intros H. destruct (decide (i = k)) as [->|Hne].
  - right. split; [exact Hs|]. split; [exact Ht|]. exists slot. split; [reflexivity|].
    apply list_find_Some in Hf as (Hk & _).
    rewrite list_lookup_insert_eq in H by (eapply lookup_lt_Some; exact Hk).
    congruence.
  - left. rewrite list_lookup_insert_ne in H by congruence. exact H.
Qed.

End Pool.

(** X11.  A tick emits at most one particle, into the first free slot,
    and none from a slow boat or before the timer has run: a slot that
    is alive after [updateWake] either was alive before it, or is the
    first slot of the pool that was not alive, and then the speed was
    above 1 and the timer plus [delta] above 0.08. *)
Theorem wake_first_free delta w i p' :
  wakePool (updateWake delta w) !! i = Some p' ->
  alive p' = true ->
  (exists p, wakePool w !! i = Some p /\ alive p = true) \/
  (boatSpeed w > 1 /\ wakeTimer w + delta > 0.08 /\
   exists slot, wakePool w !! i = Some slot /\ alive slot = false /\
     forall j q, wakePool w !! j = Some q -> (j < i)%nat -> alive q = true).
Proof.
  intros Hl Ha.
  destruct (updateWake_lookup delta w i p' Hl) as (q & Hq & ->).
  pose proof (ageSlot_alive delta q Ha) as Hqa.
  destruct (emission_lookup delta w i q Hq) as [Hsame | (Hs & Ht & slot & Hf & _)].
  - left. exists q. split; assumption.
  - right. split; [exact Hs|]. split; [exact Ht|].
    apply list_find_Some in Hf as (Hk & Hdead & Hbefore).
    exists slot. split; [exact Hk|]. split; [exact Hdead|].
    intros j r Hj Hlt. specialize (Hbefore j r Hj Hlt).
    destruct (alive r); [reflexivity | contradiction Hbefore; reflexivity].
Qed.

Lemma cruising_emission :
  (emission 0.1 cruising_world).1 = [young_slot; emit cruising_world freshSlot; freshSlot].
Proof.
  unfold emission.
  rewrite (bool_decide_eq_true_2 (boatSpeed cruising_world > 1)) by (simpl; lra).
  rewrite (bool_decide_eq_true_2 (wakeTimer cruising_world + 0.1 > 0.08)) by (simpl; lra).
  reflexivity.
Qed.

Lemma cruising_pool :
  wakePool (updateWake 0.1 cruising_world) !! 1%nat
  = Some (ageSlot 0.1 (emit cruising_world freshSlot)).
Proof.
  destruct (updateWake_fields 0.1 cruising_world) as [-> _].
  rewrite cruising_emission. reflexivity.
Qed.

Lemma emitted_survives w slot delta :
  0 <= delta < wakeLife -> alive (ageSlot delta (emit w slot)) = true.
Proof.
  intros [H0 H1]. unfold ageSlot, emit. simpl.
  rewrite decide_False; [reflexivity|]. unfold wakeLife in *. lra.
Qed.

Lemma wake_first_free_witness :
  (exists p, wakePool cruising_world !! 1%nat = Some p /\ alive p = true) \/
  (boatSpeed cruising_world > 1 /\ wakeTimer cruising_world + 0.1 > 0.08 /\
   exists slot, wakePool cruising_world !! 1%nat = Some slot /\ alive slot = false /\
     forall j q, wakePool cruising_world !! j = Some q -> (j < 1)%nat -> alive q = true).
Proof.
  apply (wake_first_free 0.1 cruising_world 1%nat _ cruising_pool).
  apply emitted_survives. unfold wakeLife. lra.
Defined.

(** X12.  The new particle is born astern of the boat: when the speed
    is above 1, the timer plus [delta] above 0.08 and slot [i] is the
    first that is not alive, that slot after [updateWake] lies at
    height 0.02, at the boat's x and z less 1.2 times the sine and the
    cosine of the heading; for [delta] in [0, wakeLife) it is alive,
    visible and of age [delta]. *)
Theorem wake_born_astern delta w i slot :
  boatSpeed w > 1 ->
  wakeTimer w + delta > 0.08 ->
  list_find (λ p, alive p = false) (wakePool w) = Some (i, slot) ->
  exists p',
    wakePool (updateWake delta w) !! i = Some p' /\
    x (mesh_position (mesh p')) = x (boat_position w) - 1.2 * sin (boatHeading w) /\
    z (mesh_position (mesh p')) = z (boat_position w) - 1.2 * cos (boatHeading w) /\
    y (mesh_position (mesh p')) = 0.02 /\
    (0 <= delta < wakeLife ->
     alive p' = true /\ visible (mesh p') = true /\ age p' = delta).
Proof.
  intros Hs Ht Hf.
  assert (E : (emission delta w).1 = <[i := emit w slot]> (wakePool w)).
  { unfold emission. rewrite !bool_decide_eq_true_2 by assumption. simpl.
    rewrite Hf. reflexivity. }
  apply list_find_Some in Hf as (Hk & _).
  exists (ageSlot delta (emit w slot)).
  assert (Hpos : mesh_position (mesh (ageSlot delta (emit w slot)))
                 = mesh_position (mesh (emit w slot))).
  { unfold ageSlot. simpl. case_decide; reflexivity. }
  split.
  { destruct (updateWake_fields delta w) as [-> _].
    rewrite list_lookup_fmap, E, list_lookup_insert_eq
      by (eapply lookup_lt_Some; exact Hk).
    reflexivity. }
  assert (Hlive : 0 <= delta < wakeLife ->
            alive (ageSlot delta (emit w slot)) = true /\
            visible (mesh (ageSlot delta (emit w slot))) = true /\
            age (ageSlot delta (emit w slot)) = delta).
  { intros Hd.
    pose proof (emitted_survives w slot delta Hd) as Ha.
    destruct (ageSlot_survivor delta (emit w slot) Ha) as (Eage & _ & _ & _ & _ & Evis).
    split; [exact Ha|]. split; [rewrite Evis; reflexivity|].
    rewrite Eage. simpl. lra. }
  rewrite Hpos. revert Hlive. generalize (ageSlot delta (emit w slot)). intros p' Hlive.
  unfold emit, addScaledVector. cbn [mesh mesh_position x y z].
  split; [lra|]. split; [lra|]. split; [reflexivity | exact Hlive].
Qed.

Lemma wake_born_astern_witness :
  exists p',
    wakePool (updateWake 0.1 cruising_world) !! 1%nat = Some p' /\
    z (mesh_position (mesh p')) = -1.2 /\
    alive p' = true.
Proof.
  destruct (wake_born_astern 0.1 cruising_world 1%nat freshSlot)
    as (p' & Hl & _ & Hz & _ & Hlive).
  - simpl. lra.
  - simpl. lra.
  - reflexivity.
  - exists p'. split; [exact Hl|]. split.
    + rewrite Hz. simpl. rewrite cos_0. lra.
    + apply Hlive. unfold wakeLife. lra.
Defined.

(** X13.  After [updateWake], whatever the pool was before, every slot
    that is alive is younger than [wakeLife], and its opacity and scale
    are the functions of its age: 0.45 * (1 - age / wakeLife) and
    0.6 + 1.4 * age / wakeLife. *)
Theorem wake_survivors delta w i p' :
  wakePool (updateWake delta w) !! i = Some p' ->
  alive p' = true ->
  age p' < wakeLife /\
  opacity (mesh p') = 0.45 * (1 - age p' / wakeLife) /\
  scale (mesh p') = setScalar (0.6 + age p' / wakeLife * 1.4).
Proof.
  intros Hl Ha.
  destruct (updateWake_lookup delta w i p' Hl) as (q & _ & ->).
  destruct (ageSlot_survivor delta q Ha) as (-> & Hlt & -> & -> & _).
  repeat split. exact Hlt.
Qed.

Lemma wake_survivors_witness :
  age (ageSlot 0.1 (emit cruising_world freshSlot)) < wakeLife.
Proof.
  destruct (wake_survivors 0.1 cruising_world 1%nat _ cruising_pool) as [H _].
  - apply emitted_survives. unfold wakeLife. lra.
  - exact H.
Defined.

(* ===================================================================== *)
(** * Properties of the handlers *)
(* ===================================================================== *)

Section HandlerFacts.

Variable toLowerCase : string -> string.

Lemma openModal_ready island pg :
  modalReady (modal pg) = true ->
  openModal island pg
  = mkPage (setModalOpen (world pg) true)
           (mkModal (modalBackdrop (modal pg)) (modalTitle (modal pg))
                    (modalBody (modal pg)) "flex"
                    (name (biome island)) (description (biome island))).
Proof.
  unfold modalReady, openModal. intros H.
  apply andb_true_iff in H as [H H3]. apply andb_true_iff in H as [H1 H2].
  rewrite H1, H2, H3. reflexivity.
Qed.

Lemma openModal_unready island pg :
  modalReady (modal pg) = false -> openModal island pg = pg.
Proof.
  unfold modalReady, openModal. intros H.
  destruct (modalBackdrop (modal pg)), (modalTitle (modal pg)), (modalBody (modal pg));
    simpl in *; try reflexivity; discriminate.
Qed.

(** [openModal] and [closeModal] write to the modal and to [modalOpen],
    and to nothing else. *)
Lemma openModal_world island pg :
  setModalOpen (world (openModal island pg)) (modalOpen (world pg)) = world pg \/
  world (openModal island pg) = setModalOpen (world pg) true.
Proof.
  destruct (modalReady (modal pg)) eqn:H.
  - right. rewrite openModal_ready by exact H. reflexivity.
  - left. rewrite openModal_unready by exact H. destruct (world pg); reflexivity.
Qed.

Lemma closeModal_open pg :
  modalBackdrop (modal pg) = true ->
  modalOpen (world (closeModal pg)) = false /\
  backdrop_display (modal (closeModal pg)) = "none" /\
  keys (world (closeModal pg)) = keys (world pg).
Proof. intros H. unfold closeModal. rewrite H. simpl. repeat split. Qed.

Lemma keydown_cases key pg :
  (key = "Escape" /\ modalOpen (world pg) = true /\
   keydown toLowerCase key pg = closeModal pg) \/
  (~ (key = "Escape" /\ modalOpen (world pg) = true) /\
   (key = "e" \/ key = "Enter") /\
   exists island, activeIsland (world pg) = Some island /\
     keydown toLowerCase key pg = openModal island (recorded toLowerCase key pg)) \/
  (~ (key = "Escape" /\ modalOpen (world pg) = true) /\
   (~ (key = "e" \/ key = "Enter") \/ activeIsland (world pg) = None) /\
   keydown toLowerCase key pg = recorded toLowerCase key pg).
Proof.
  unfold keydown. fold (recorded toLowerCase key pg).
  destruct (decide (key = "Escape")) as [He|He];
    destruct (modalOpen (world pg)) eqn:Hm.
  - left. rewrite bool_decide_eq_true_2 by exact He. auto.
  - right. rewrite andb_false_r.
    assert (Hne : ~ (key = "Escape" /\ false = true)) by (intros [_ H]; discriminate).
    subst key. simpl. right. split; [exact Hne|]. split; [|reflexivity].
    left. intros [H|H]; discriminate.
  - right. rewrite bool_decide_eq_false_2 by exact He. simpl.
    assert (Hne : ~ (key = "Escape" /\ true = true)) by (intros [H _]; contradiction).
    destruct (decide (key = "e")) as [E1|E1]; [|destruct (decide (key = "Enter")) as [E2|E2]].
    + rewrite (bool_decide_eq_true_2 (key = "e")) by exact E1. simpl.
      destruct (activeIsland (world pg)) as [i|] eqn:Ha.
      * left. split; [exact Hne|]. split; [left; exact E1|]. exists i. auto.
      * right. split; [exact Hne|]. split; [right; reflexivity | reflexivity].
    + rewrite (bool_decide_eq_true_2 (key = "Enter")) by exact E2. rewrite orb_true_r.
      destruct (activeIsland (world pg)) as [i|] eqn:Ha.
      * left. split; [exact Hne|]. split; [right; exact E2|]. exists i. auto.
      * right. split; [exact Hne|]. split; [right; reflexivity | reflexivity].
    + rewrite !bool_decide_eq_false_2 by assumption. simpl.
      right. split; [exact Hne|]. split; [left; tauto | reflexivity].
  - right. rewrite bool_decide_eq_false_2 by exact He. simpl.
    assert (Hne : ~ (key = "Escape" /\ false = true)) by (intros [H _]; contradiction).
    destruct (decide (key = "e")) as [E1|E1]; [|destruct (decide (key = "Enter")) as [E2|E2]].
    + rewrite (bool_decide_eq_true_2 (key = "e")) by exact E1. simpl.
      destruct (activeIsland (world pg)) as [i|] eqn:Ha.
      * left. split; [exact Hne|]. split; [left; exact E1|]. exists i. auto.
      * right. split; [exact Hne|]. split; [right; reflexivity | reflexivity].
    + rewrite (bool_decide_eq_true_2 (key = "Enter")) by exact E2. rewrite orb_true_r.
      destruct (activeIsland (world pg)) as [i|] eqn:Ha.
      * left. split; [exact Hne|]. split; [right; exact E2|]. exists i. auto.
      * right. split; [exact Hne|]. split; [right; reflexivity | reflexivity].
    + rewrite !bool_decide_eq_false_2 by assumption. simpl.
      right. split; [exact Hne|]. split; [left; tauto | reflexivity].
Qed.

Lemma openModal_keys island pg : keys (world (openModal island pg)) = keys (world pg).
Proof.
  destruct (openModal_world island pg) as [H | ->]; [|reflexivity].
  pose proof (f_equal keys H) as H'. simpl in H'. exact H'.
Qed.

Lemma closeModal_keys pg : keys (world (closeModal pg)) = keys (world pg).
Proof. unfold closeModal. destruct (negb _); reflexivity. Qed.

End HandlerFacts.

Section Events.

Variable toLowerCase : string -> string.
Variable islands : list Island.

Lemma keydown_keys key pg :
  (key = "Escape" /\ modalOpen (world pg) = true /\
   keys (world (keydown toLowerCase key pg)) = keys (world pg)) \/
  (~ (key = "Escape" /\ modalOpen (world pg) = true) /\
   keys (world (keydown toLowerCase key pg)) = {[toLowerCase key]} ∪ keys (world pg)).
Proof.
  destruct (keydown_cases toLowerCase key pg)
    as [(He & Hm & ->) | [(Hn & _ & i & _ & ->) | (Hn & _ & ->)]].
  - left. split; [exact He|]. split; [exact Hm|]. apply closeModal_keys.
  - right. split; [exact Hn|]. rewrite openModal_keys. reflexivity.
  - right. split; [exact Hn|]. reflexivity.
Qed.

Lemma openModal_sound island pg : modalSound pg -> modalSound (openModal island pg).
Proof.
  intros Hs. destruct (modalReady (modal pg)) eqn:Hr.
  - rewrite openModal_ready by exact Hr. intros _. simpl.
    unfold modalReady in Hr. apply andb_true_iff in Hr as [Hr _].
    apply andb_true_iff in Hr as [Hr _]. split; [exact Hr | reflexivity].
  - rewrite openModal_unready by exact Hr. exact Hs.
Qed.

Lemma closeModal_sound pg : modalSound pg -> modalSound (closeModal pg).
Proof.
  intros Hs. unfold closeModal.
  destruct (modalBackdrop (modal pg)) eqn:Hb; simpl; [|exact Hs].
  intros H. discriminate H.
Qed.

Lemma handle_sound e pg : modalSound pg -> modalSound (handle toLowerCase islands pg e).
Proof.
  intros Hs. destruct e as [key|key| | | |delta elapsed]; simpl.
  - destruct (keydown_cases toLowerCase key pg)
      as [(_ & _ & ->) | [(_ & _ & i & _ & ->) | (_ & _ & ->)]].
    + apply closeModal_sound, Hs.
    + apply openModal_sound. exact Hs.
    + exact Hs.
  - exact Hs.
  - unfold clickDock. destruct (activeIsland (world pg)); [apply openModal_sound|];
      exact Hs.
  - apply closeModal_sound, Hs.
  - apply closeModal_sound, Hs.
  - unfold modalSound. simpl.
    destruct (animate_boat islands delta elapsed (world pg)) as (_ & _ & _ & _ & ->).
    exact Hs.
Qed.

Lemma run_sound events : forall pg,
  modalSound pg -> modalSound (run toLowerCase islands events pg).
Proof.
  unfold run. induction events as [|e rest IH]; intros pg Hs; simpl; [exact Hs|].
  apply IH, handle_sound, Hs.
Qed.

End Events.

(** X15.  A key that went down comes up: when the keys of a keydown and
    of a later keyup have the same lower-case form (w and W, say), the
    key is held after the keydown, unless that was the Escape that
    closes the modal, and is not held after the keyup; if it was not
    held before the keydown, the set of held keys is back to what it
    was. *)
Theorem key_release (toLowerCase : string -> string) k1 k2 pg :
  toLowerCase k1 = toLowerCase k2 ->
  let down := keydown toLowerCase k1 pg in
  let up := keyup toLowerCase k2 down in
  (~ (k1 = "Escape" /\ modalOpen (world pg) = true) ->
   toLowerCase k1 ∈ keys (world down)) /\
  (toLowerCase k1 ∉ keys (world up)) /\
  (toLowerCase k1 ∉ keys (world pg) -> keys (world up) = keys (world pg)).
Proof.
  intros Hk down up.
  assert (Hup : keys (world up) = keys (world down) ∖ {[toLowerCase k1]}).
  { subst up. unfold keyup. simpl. rewrite Hk. reflexivity. }
  rewrite Hup. subst down.
  destruct (keydown_keys toLowerCase k1 pg) as [(He & Hm & ->) | (Hn & ->)].
  - split; [intros H; contradiction H; auto|]. split; set_solver.
  - split; [intros _; set_solver|]. split; set_solver.
Qed.

Lemma key_release_witness :
  keys (world (keyup lowerString "w" (keydown lowerString "W" start_page))) = ∅.
Proof.
  destruct (key_release lowerString "W" "w" start_page eq_refl) as (_ & _ & H).
  apply H. simpl. apply not_elem_of_empty.
Defined.

(** X16.  Escape always leaves the modal closed.  From a page whose
    modal is closed, after any sequence of key events, clicks and
    frames, the modal flag is set only with the backdrop found and
    shown; so a keydown of Escape then leaves the flag cleared, and if
    the modal was open it hides the backdrop and is not recorded as a
    held key. *)
Theorem escape_closes (toLowerCase : string -> string) islands events pg :
  modalOpen (world pg) = false ->
  let pg' := run toLowerCase islands events pg in
  let pg'' := keydown toLowerCase "Escape" pg' in
  (modalOpen (world pg') = true ->
   modalBackdrop (modal pg') = true /\ backdrop_display (modal pg') = "flex") /\
  modalOpen (world pg'') = false /\
  (modalOpen (world pg') = true ->
   backdrop_display (modal pg'') = "none" /\ keys (world pg'') = keys (world pg')).
Proof.
  intros Hclosed pg' pg''.
  assert (Hs : modalSound pg').
  { apply run_sound. intros H. rewrite Hclosed in H. discriminate H. }
  split; [exact Hs|].
  subst pg''. unfold keydown.
  rewrite (bool_decide_eq_true_2 ("Escape" = "Escape")) by reflexivity.
  destruct (modalOpen (world pg')) eqn:Hm; simpl.
  - destruct (Hs Hm) as [Hb _].
    destruct (closeModal_open pg' Hb) as (H1 & H2 & H3).
    split; [exact H1|]. intros _. split; assumption.
  - split; [exact Hm|]. intros H. discriminate H.
Qed.

Lemma escape_closes_witness :
  modalOpen (world (keydown lowerString "Escape"
                      (run lowerString registry [KeyDown "e"; Frame 1 0; KeyDown "w"]
                           docked_page))) = false.
Proof.
  destruct (escape_closes lowerString registry [KeyDown "e"; Frame 1 0; KeyDown "w"]
              docked_page eq_refl) as (_ & H & _).
  exact H.
Defined.

(** X17.  The modal opens on a keydown exactly when the key is e or
    Enter (as [e.key] gives them: E with Shift does not count), an
    island is active and the modal's three handles exist.  It then
    shows the name and the description of the active island's biome,
    and the next frame leaves the boat where it is. *)
Theorem dock_opens (toLowerCase : string -> string) key pg :
  modalOpen (world pg) = false ->
  let pg' := keydown toLowerCase key pg in
  (modalOpen (world pg') = true <->
   (key = "e" \/ key = "Enter") /\
   activeIsland (world pg) <> None /\
   modalReady (modal pg) = true) /\
  (forall island, modalOpen (world pg') = true ->
     activeIsland (world pg) = Some island ->
     backdrop_display (modal pg') = "flex" /\
     modal_title_text (modal pg') = name (biome island) /\
     modal_body_text (modal pg') = description (biome island) /\
     forall islands delta elapsed,
       boat_position (animate islands delta elapsed (world pg'))
       = boat_position (world pg)).
Proof.
  intros Hclosed pg'.
  assert (Hfreeze : forall v, modalOpen v = true ->
            forall islands delta elapsed,
              boat_position (animate islands delta elapsed v) = boat_position v).
  { intros v Hv islands delta elapsed.
    destruct (animate_boat islands delta elapsed v) as (_ & _ & _ & -> & _).
    rewrite (updateBoat_open islands delta elapsed v Hv). reflexivity. }
  subst pg'.
  destruct (keydown_cases toLowerCase key pg)
    as [(_ & Hm & _) | [(_ & Hk & i & Ha & ->) | (_ & Hno & ->)]].
  - rewrite Hclosed in Hm. discriminate Hm.
  - destruct (modalReady (modal pg)) eqn:Hr.
    + rewrite openModal_ready by exact Hr. simpl. split.
      * split; [intros _|reflexivity].
        split; [exact Hk|]. split; [rewrite Ha; discriminate | reflexivity].
      * intros island _ Hi. rewrite Ha in Hi. injection Hi as <-.
        repeat split. intros islands delta elapsed.
        rewrite Hfreeze by reflexivity. reflexivity.
    + rewrite openModal_unready by exact Hr. simpl. rewrite Hclosed. split.
      * split; [discriminate|]. intros (_ & _ & H). discriminate H.
      * intros island H. discriminate H.
  - simpl. rewrite Hclosed. split.
    + split; [discriminate|]. intros (Hk & Ha & _).
      destruct Hno as [Hno | Hno]; [contradiction | contradiction].
    + intros island H. discriminate H.
Qed.

Lemma dock_opens_witness :
  modalOpen (world (keydown lowerString "Enter" docked_page)) = true /\
  modal_title_text (modal (keydown lowerString "Enter" docked_page)) = "Tropical Cay".
Proof.
  destruct (dock_opens lowerString "Enter" docked_page eq_refl) as [Hiff Htext].
  assert (Hopen : modalOpen (world (keydown lowerString "Enter" docked_page)) = true).
  { apply Hiff. split; [right; reflexivity|]. split; [discriminate | reflexivity]. }
  split; [exact Hopen|].
  destruct (Htext first_island Hopen eq_refl) as (_ & Ht & _). exact Ht.
Defined.

Section Health.

Variable toLowerCase : string -> string.
Variable islands : list Island.

Lemma boot_healthy sp : healthy (boot sp).
Proof.
  unfold healthy, boot, initWake. cbn [wakePool boatSpeed app]. split; [|split].
  - apply length_replicate.
  - apply Forall_replicate. reflexivity.
  - unfold maxSpeed. lra.
Qed.

Lemma updateBoat_pool delta elapsed w :
  wakePool (updateBoat islands delta elapsed w) = wakePool w.
Proof.
  unfold updateBoat. destruct (modalOpen w); [reflexivity|].
  destruct (collisions islands _). reflexivity.
Qed.

Lemma updateBoat_caps delta elapsed w :
  - maxSpeed * 0.5 <= boatSpeed w <= maxSpeed * 1.4 ->
  - maxSpeed * 0.5 <= boatSpeed (updateBoat islands delta elapsed w) <= maxSpeed * 1.4.
Proof.
  intros Hr. destruct (modalOpen w) eqn:Hm.
  - rewrite (updateBoat_open islands delta elapsed w Hm). simpl.
    unfold maxSpeed in *. lra.
  - destruct (updateBoat_closed islands delta elapsed w Hm) as [-> _].
    pose proof (inputSpeed_range (keys w) delta (boatSpeed w) Hr) as Hi.
    destruct (collisions_speed islands
                (tentative (boat_position w)
                   (inputHeading (keys w) delta
                      (inputSpeed (keys w) delta (boatSpeed w)) (boatHeading w))
                   (inputSpeed (keys w) delta (boatSpeed w)) delta,
                 inputSpeed (keys w) delta (boatSpeed w))) as [-> | ->].
    + exact Hi.
    + unfold maxSpeed. lra.
Qed.

Lemma emit_shown w slot : visible (mesh (emit w slot)) = alive (emit w slot).
Proof. reflexivity. Qed.

Lemma ageSlot_shown delta p :
  visible (mesh p) = alive p ->
  visible (mesh (ageSlot delta p)) = alive (ageSlot delta p).
Proof.
  intros H. unfold ageSlot. destruct (alive p) eqn:Ha; simpl; [|rewrite Ha; exact H].
  case_decide; simpl; [reflexivity | exact H].
Qed.

Lemma emission_pool delta w :
  List.length (emission delta w).1 = List.length (wakePool w) /\
  (Forall (λ p, visible (mesh p) = alive p) (wakePool w) ->
   Forall (λ p, visible (mesh p) = alive p) (emission delta w).1).
Proof.
  unfold emission.
  destruct (_ && _); [|split; [reflexivity | auto]].
  destruct (list_find _ _) as [[k slot]|]; simpl; [|split; [reflexivity | auto]].
  split; [apply length_insert|].
  intros H. apply Forall_insert; [exact H | apply emit_shown].
Qed.

Lemma updateWake_pool delta w :
  List.length (wakePool (updateWake delta w)) = List.length (wakePool w) /\
  (Forall (λ p, visible (mesh p) = alive p) (wakePool w) ->
   Forall (λ p, visible (mesh p) = alive p) (wakePool (updateWake delta w))).
Proof.
  destruct (updateWake_fields delta w) as [-> _].
  destruct (emission_pool delta w) as [Hl Hf]. split.
  - rewrite length_fmap. exact Hl.
  - intros H. apply Forall_fmap. eapply Forall_impl; [apply Hf, H|].
    intros p Hp. simpl. apply ageSlot_shown, Hp.
Qed.

Lemma animate_healthy delta elapsed w :
  healthy w -> healthy (animate islands delta elapsed w).
Proof.
  intros (Hl & Hf & Hr). unfold healthy, animate.
  destruct (updateProximityUI_boat islands
              (updateWake delta (updateBoat islands delta elapsed w)))
    as (_ & -> & _ & _ & _ & -> & _).
  destruct (updateWake_pool delta (updateBoat islands delta elapsed w)) as [Wl Wf].
  destruct (updateWake_boat delta (updateBoat islands delta elapsed w))
    as (_ & -> & _).
  rewrite Wl, updateBoat_pool. split; [exact Hl|]. split.
  - apply Wf. rewrite updateBoat_pool. exact Hf.
  - apply updateBoat_caps, Hr.
Qed.

Lemma setModalOpen_healthy w b : healthy w -> healthy (setModalOpen w b).
Proof. intros H. exact H. Qed.

Lemma openModal_healthy island pg :
  healthy (world pg) -> healthy (world (openModal island pg)).
Proof.
  intros H. destruct (modalReady (modal pg)) eqn:Hr.
  - rewrite openModal_ready by exact Hr. exact H.
  - rewrite openModal_unready by exact Hr. exact H.
Qed.

Lemma closeModal_healthy pg : healthy (world pg) -> healthy (world (closeModal pg)).
Proof. intros H. unfold closeModal. destruct (negb _); exact H. Qed.

Lemma handle_healthy e pg :
  healthy (world pg) -> healthy (world (handle toLowerCase islands pg e)).
Proof.
  intros H. destruct e as [key|key| | | |delta elapsed]; simpl.
  - destruct (keydown_cases toLowerCase key pg)
      as [(_ & _ & ->) | [(_ & _ & i & _ & ->) | (_ & _ & ->)]].
    + apply closeModal_healthy, H.
    + apply openModal_healthy. exact H.
    + exact H.
  - exact H.
  - unfold clickDock. destruct (activeIsland (world pg)); [apply openModal_healthy|];
      exact H.
  - apply closeModal_healthy, H.
  - apply closeModal_healthy, H.
  - apply animate_healthy, H.
Qed.

End Health.

(** X14.  From start-up on, after any sequence of key events, clicks
    and frames, the wake pool still has exactly [wakeCount] slots (so
    never more than [wakeCount] particles), every slot is visible
    exactly when it is alive, and the speed is within
    [-maxSpeed * 0.5, maxSpeed * 1.4]. *)
Theorem always_healthy (toLowerCase : string -> string) islands events sp m :
  let w := world (run toLowerCase islands events (mkPage (boot sp) m)) in
  List.length (wakePool w) = wakeCount /\
  Forall (λ p, visible (mesh p) = alive p) (wakePool w) /\
  - maxSpeed * 0.5 <= boatSpeed w <= maxSpeed * 1.4.
Proof.
  assert (H : forall pg, healthy (world pg) ->
            healthy (world (run toLowerCase islands events pg))).
  { unfold run. induction events as [|e rest IH]; intros pg Hp; simpl; [exact Hp|].
    apply IH, handle_healthy, Hp. }
  apply (H (mkPage (boot sp) m)). apply boot_healthy.
Qed.

(* ===================================================================== *)
(** * Properties of the ambient animators *)
(* ===================================================================== *)

Section WindFacts.

Variable rnd : nat -> R.
Hypothesis rnd_unit : forall k, 0 <= rnd k < 1.

Lemma respawn_over_water a b c :
  0 <= a < 1 -> 0 <= c < 1 ->
  Wind.overWater (mkVector3 ((a - 0.5) * waterSize * 0.3) b ((c - 0.5) * waterSize * 0.3)).
Proof.
  intros Ha Hc. unfold Wind.overWater, waterSize. simpl.
  unfold Rabs. repeat destruct (Rcase_abs _); lra.
Qed.

Lemma step_over_water delta elapsed i n p :
  Wind.overWater (Wind.step rnd delta elapsed i n p).1.
Proof.
  unfold Wind.step.
  case_bool_decide as Hx; [simpl; apply respawn_over_water; apply rnd_unit|].
  case_bool_decide as Hz; cbn [orb fst].
  - apply respawn_over_water; apply rnd_unit.
  - unfold Wind.overWater. cbn [x z]. lra.
Qed.

Lemma animateWindFrom_over_water delta elapsed ps : forall i n,
  Forall Wind.overWater (Wind.animateWindFrom rnd delta elapsed i n ps).1 /\
  List.length (Wind.animateWindFrom rnd delta elapsed i n ps).1 = List.length ps.
Proof.
  induction ps as [|p rest IH]; intros i n; simpl.
  - split; [constructor | reflexivity].
  - pose proof (step_over_water delta elapsed i n p) as Hs.
    destruct (Wind.step rnd delta elapsed i n p) as [p' n1].
    specialize (IH (S i) n1).
    destruct (Wind.animateWindFrom rnd delta elapsed (S i) n1 rest) as [rest' n2].
    simpl in *. destruct IH as [IHf IHl].
    split; [constructor; assumption | rewrite IHl; reflexivity].
Qed.

Lemma initWind_over_water count : forall n,
  Forall Wind.overWater (Wind.initWind rnd count n).1 /\
  List.length (Wind.initWind rnd count n).1 = count.
Proof.
  induction count as [|c IH]; intros n; simpl.
  - split; [constructor | reflexivity].
  - specialize (IH (S (S (S n)))).
    destruct (Wind.initWind rnd c (S (S (S n)))) as [rest m]. simpl in *.
    destruct IH as [IHf IHl]. split; [|rewrite IHl; reflexivity].
    constructor; [|exact IHf].
    pose proof (rnd_unit n). pose proof (rnd_unit (S (S n))).
    unfold Wind.overWater, waterSize. simpl.
    unfold Rabs. repeat destruct (Rcase_abs _); lra.
Qed.

End WindFacts.

(** X18.  The wind stays over the water: with [Math.random] in [0, 1),
    every point that [animateWind] leaves has x and z within
    [-waterSize / 2, waterSize / 2], wherever the points were before and
    whatever [delta] is, and there are as many points as before; the
    points the start-up loop creates are within that square too. *)
Theorem wind_over_water rnd delta elapsed n ps count :
  (forall k, 0 <= rnd k < 1) ->
  Forall Wind.overWater (Wind.animateWind rnd delta elapsed n ps).1 /\
  List.length (Wind.animateWind rnd delta elapsed n ps).1 = List.length ps /\
  Forall Wind.overWater (Wind.initWind rnd count n).1 /\
  List.length (Wind.initWind rnd count n).1 = count.
Proof.
  intros Hr. unfold Wind.animateWind.
  destruct (animateWindFrom_over_water rnd Hr delta elapsed ps 0 n) as [H1 H2].
  destruct (initWind_over_water rnd Hr count n) as [H3 H4].
  repeat split; assumption.
Qed.

Lemma wind_over_water_witness :
  Forall Wind.overWater
    (Wind.animateWind (λ _, 0.5) 100 0 0%nat [mkVector3 119 1 0; mkVector3 0 1 0]).1.
Proof.
  destruct (wind_over_water (λ _, 0.5) 100 0 0%nat
              [mkVector3 119 1 0; mkVector3 0 1 0] 0%nat) as [H _].
  - intros k. lra.
  - exact H.
Defined.

Section BirdFacts.

Lemma hypot_comm a b : hypot a b = hypot b a.
Proof. unfold hypot. f_equal. ring. Qed.

Lemma fly_orbit time i bird :
  hypot (x (Birds.mesh_position (Birds.fly time i bird)))
        (z (Birds.mesh_position (Birds.fly time i bird)))
  = Rabs (Birds.orbitR bird) /\
  Rabs (y (Birds.mesh_position (Birds.fly time i bird)) - Birds.height bird) <= 0.6.
Proof.
  unfold Birds.fly. simpl. split.
  - rewrite hypot_scale_abs, hypot_comm, hypot_unit. ring.
  - set (a := time * Birds.speed bird + Birds.phase bird).
    pose proof (SIN_bound (a * 1.3 + INR i)) as [Hlo Hhi].
    unfold Rabs. destruct (Rcase_abs _); lra.
Qed.

End BirdFacts.

(** X19.  Each bird keeps to its circle: after [animateBirds], at any
    time, the position of a bird is at horizontal distance [|orbitR|]
    from the origin, up to [slack] for each unit of [1 + |orbitR|], with
    neither x nor z beyond [|orbitR|], and within 0.6 of its [height];
    its parameters are as they were. *)
Theorem bird_on_orbit time birds i bird :
  birds !! i = Some bird ->
  exists bird',
    Birds.animateBirds time birds !! i = Some bird' /\
    Rabs (hypot (x (Birds.mesh_position bird')) (z (Birds.mesh_position bird'))
          - Rabs (Birds.orbitR bird))
      <= slack * (1 + Rabs (Birds.orbitR bird)) /\
    Rabs (x (Birds.mesh_position bird')) <= Rabs (Birds.orbitR bird) /\
    Rabs (z (Birds.mesh_position bird')) <= Rabs (Birds.orbitR bird) /\
    Rabs (y (Birds.mesh_position bird') - Birds.height bird) <= 0.6 /\
    Birds.orbitR bird' = Birds.orbitR bird /\
    Birds.speed bird' = Birds.speed bird /\
    Birds.height bird' = Birds.height bird /\
    Birds.phase bird' = Birds.phase bird.
Proof.
  intros Hl. exists (Birds.fly time i bird).
  split.
  - unfold Birds.animateBirds. rewrite list_lookup_imap, Hl. reflexivity.
  - destruct (fly_orbit time i bird) as [H1 H2].
    pose proof (Rabs_pos (Birds.orbitR bird)) as Hr.
    split; [|split; [|split; [|split; [exact H2 | repeat split]]]].
    + rewrite H1. replace (Rabs _ - Rabs _) with 0 by ring. rewrite Rabs_R0.
      apply Rmult_le_pos; [pose proof slack_pos; lra | lra].
    + unfold Birds.fly. cbn [Birds.mesh_position x]. rewrite Rabs_mult.
      pose proof (COS_bound (time * Birds.speed bird + Birds.phase bird)) as [Hlo Hhi].
      assert (Hc : Rabs (cos (time * Birds.speed bird + Birds.phase bird)) <= 1)
        by (unfold Rabs; destruct (Rcase_abs _); lra).
      nra.
    + unfold Birds.fly. cbn [Birds.mesh_position z]. rewrite Rabs_mult.
      pose proof (SIN_bound (time * Birds.speed bird + Birds.phase bird)) as [Hlo Hhi].
      assert (Hc : Rabs (sin (time * Birds.speed bird + Birds.phase bird)) <= 1)
        by (unfold Rabs; destruct (Rcase_abs _); lra).
      nra.
Qed.

(** The first bird, of orbit 14 and height 9, three seconds in. *)
Lemma bird_on_orbit_witness :
  exists bird',
    Birds.animateBirds 3 [gull] !! 0%nat = Some bird' /\
    Rabs (hypot (x (Birds.mesh_position bird')) (z (Birds.mesh_position bird')) - 14)
      <= slack * 15 /\
    Rabs (y (Birds.mesh_position bird') - 9) <= 0.6.
Proof.
  destruct (bird_on_orbit 3 [gull] 0%nat gull eq_refl) as (b' & Hl & Hd & _ & _ & Hy & _).
  exists b'. split; [exact Hl|].
  change (Birds.orbitR gull) with 14 in Hd. change (Birds.height gull) with 9 in Hy.
  rewrite (Rabs_right 14) in Hd by lra.
  replace (1 + 14) with 15 in Hd by lra.
  split; [exact Hd | exact Hy].
Defined.

Section TintFacts.

Lemma smoothstep_unit v : 0 <= Tint.smoothstep v 0 1 <= 1.
Proof.
  unfold Tint.smoothstep.
  case_decide as H0; [lra|]. case_decide as H1; [lra|].
  replace ((v - 0) / (1 - 0)) with v by field.
  assert (Hv : 0 < v < 1) by lra.
  split; [|assert (0 <= (1 - v) * (1 - v) * (1 + 2 * v)) by
             (apply Rmult_le_pos; [nra | lra])]; nra.
Qed.

Lemma mix_within lo hi c t alpha :
  lo <= c <= hi -> lo <= t <= hi -> 0 <= alpha <= 1 ->
  lo <= c + (t - c) * alpha <= hi.
Proof. intros Hc Ht Ha. split; nra. Qed.

Lemma lerp_within lo hi c t alpha :
  Tint.channelsIn lo hi c -> Tint.channelsIn lo hi t -> 0 <= alpha <= 1 ->
  Tint.channelsIn lo hi (Tint.lerp c t alpha).
Proof.
  intros (C1 & C2 & C3) (T1 & T2 & T3) Ha. unfold Tint.channelsIn, Tint.lerp. simpl.
  split; [|split]; apply mix_within; assumption.
Qed.

End TintFacts.

(** A point at least three radii from the centre of every island keeps
    the colour it came with. *)
Lemma vertexColor_far tintOf islands base vx vz :
  Forall (λ i, radius i * 3 <= hypot (vx - x (position i)) (vz - z (position i)))
         islands ->
  Tint.vertexColor tintOf islands base vx vz = base.
Proof.
  unfold Tint.vertexColor. induction 1 as [|i rest Hi _ IH]; simpl; [reflexivity|].
  unfold Tint.blend at 2. rewrite decide_False by lra. exact IH.
Qed.

Lemma INR_segments : INR Tint.waterSegments = 240.
Proof. unfold Tint.waterSegments. rewrite INR_IZR_INZ. reflexivity. Qed.

(** The segments of the water plane are 1 wide: the x of a vertex is
    its column less 120. *)
Lemma getX_column i :
  Tint.getX i = INR (i mod (Tint.waterSegments + 1)) - 120.
Proof. unfold Tint.getX. rewrite INR_segments. unfold waterSize. lra. Qed.

Lemma tintWaterVertices_lookup tintOf islands base i :
  (i < Tint.count)%nat ->
  Tint.tintWaterVertices tintOf islands base !! i
  = Some (Tint.vertexColor tintOf islands base (Tint.getX i) 0).
Proof.
  intros Hi. unfold Tint.tintWaterVertices.
  rewrite list_lookup_fmap, lookup_seq_lt by exact Hi. reflexivity.
Qed.

(** X20.  [tintWaterVertices] tints by column.  The z it reads from the
    position attribute is 0 for every vertex of the plane, so the
    colour of vertex [i] is the colour of the point [(getX i, 0)]: two
    vertices of the same column get the same colour, whatever their
    rows, and that colour is [baseWaterColor] unchanged when the point
    [(getX i, 0)] is at least three radii from the centre of every
    island. *)
Theorem tint_by_column tintOf islands base i k :
  (i < Tint.count)%nat -> (k < Tint.count)%nat ->
  (i mod (Tint.waterSegments + 1) = k mod (Tint.waterSegments + 1))%nat ->
  exists c,
    Tint.tintWaterVertices tintOf islands base !! i = Some c /\
    Tint.tintWaterVertices tintOf islands base !! k = Some c /\
    c = Tint.vertexColor tintOf islands base
          (INR (i mod (Tint.waterSegments + 1)) - 120) 0 /\
    (Forall (λ j, radius j * 3
                    <= hypot (Tint.getX i - x (position j)) (0 - z (position j)))
            islands ->
     c = base).
Proof.
  intros Hi Hk Hcol.
  exists (Tint.vertexColor tintOf islands base (Tint.getX i) 0).
  split; [apply tintWaterVertices_lookup; exact Hi|].
  split; [|split].
  - rewrite (tintWaterVertices_lookup tintOf islands base k Hk).
    rewrite (getX_column i), (getX_column k), Hcol. reflexivity.
  - rewrite getX_column. reflexivity.
  - apply vertexColor_far.
Qed.

(** The first vertices of the first two rows, at x = -120, both keep
    the base colour with the islands of the source. *)
Lemma tint_by_column_witness :
  Tint.tintWaterVertices plain_tint registry (Tint.mkColor 0.2 0.8 1) !! 0%nat
    = Some (Tint.mkColor 0.2 0.8 1) /\
  Tint.tintWaterVertices plain_tint registry (Tint.mkColor 0.2 0.8 1) !! 241%nat
    = Some (Tint.mkColor 0.2 0.8 1).
Proof.
  destruct (tint_by_column plain_tint registry (Tint.mkColor 0.2 0.8 1) 0 241)
    as (c & H0 & H241 & _ & Hbase).
  - unfold Tint.count, Tint.waterSegments. lia.
  - unfold Tint.count, Tint.waterSegments. lia.
  - reflexivity.
  - rewrite Hbase in H0, H241.
    + split; [exact H0 | exact H241].
    + rewrite getX_column.
      change (0 mod (Tint.waterSegments + 1))%nat with 0%nat.
      change (INR 0) with 0.
      unfold registry. each_island; cbn [radius position x z]; apply hypot_lower; lra.
    + rewrite getX_column.
      change (0 mod (Tint.waterSegments + 1))%nat with 0%nat.
      change (INR 0) with 0.
      unfold registry. each_island; cbn [radius position x z]; apply hypot_lower; lra.
Defined.

(** X21.  Tinting never leaves the palette: if every channel of the
    base colour and of every island's tint lies in [lo, hi], so does
    every channel of the colour a vertex gets, wherever the vertex
    is. *)
Theorem tint_within_palette tintOf islands base vx vz lo hi :
  Tint.channelsIn lo hi base ->
  (forall i, i ∈ islands -> Tint.channelsIn lo hi (tintOf i)) ->
  Tint.channelsIn lo hi (Tint.vertexColor tintOf islands base vx vz).
Proof.
  unfold Tint.vertexColor. revert base.
  induction islands as [|i rest IH]; intros base Hb Ht; simpl; [exact Hb|].
  apply IH.
  - unfold Tint.blend. case_decide; [|exact Hb].
    apply lerp_within; [exact Hb | apply Ht; apply elem_of_cons; left; reflexivity |].
    match goal with
    | |- context [Tint.smoothstep ?v 0 1] => pose proof (smoothstep_unit v)
    end.
    lra.
  - intros j Hj. apply Ht. apply elem_of_cons. right. exact Hj.
Qed.

Lemma tint_within_palette_witness :
  Tint.channelsIn 0 1
    (Tint.vertexColor plain_tint registry (Tint.mkColor 0.2 0.8 1) (-20) (-6)).
Proof.
  apply tint_within_palette.
  - unfold Tint.channelsIn. simpl. lra.
  - intros i _. unfold Tint.channelsIn, plain_tint. simpl. lra.
Defined.

(* ===================================================================== *)
(** * Coasting to a stop *)
(* ===================================================================== *)

Section Coasting.

Variable islands : list Island.

Lemma updateBoat_input delta elapsed w :
  keys (updateBoat islands delta elapsed w) = keys w /\
  modalOpen (updateBoat islands delta elapsed w) = modalOpen w.
Proof.
  unfold updateBoat. destruct (modalOpen w) eqn:Hm; simpl; [split; reflexivity|].
  destruct (collisions islands _). simpl. split; reflexivity.
Qed.

(** One tick of coasting: the speed is 0 afterwards, or it is the old
    speed times [damping] and no smaller than 0.05 in absolute value. *)
Lemma coast_tick delta elapsed w :
  modalOpen w = false -> forward (keys w) = 0 ->
  boatSpeed (updateBoat islands delta elapsed w) = 0 \/
  (boatSpeed (updateBoat islands delta elapsed w) = boatSpeed w * damping /\
   0.05 <= Rabs (boatSpeed w * damping)).
Proof.
  intros Hm Hf.
  destruct (updateBoat_closed islands delta elapsed w Hm) as [-> _].
  destruct (collisions_speed islands
              (tentative (boat_position w)
                 (inputHeading (keys w) delta
                    (inputSpeed (keys w) delta (boatSpeed w)) (boatHeading w))
                 (inputSpeed (keys w) delta (boatSpeed w)) delta,
               inputSpeed (keys w) delta (boatSpeed w))) as [-> | ->];
    [|left; reflexivity].
  cbn [snd]. rewrite (inputSpeed_coast _ _ _ Hf).
  case_decide as Hlt; [left; reflexivity | right; split; [reflexivity | lra]].
Qed.

Lemma coast_ticks frames : forall w,
  modalOpen w = false -> forward (keys w) = 0 ->
  boatSpeed (ticks islands frames w) = 0 \/
  (boatSpeed (ticks islands frames w) = boatSpeed w * damping ^ List.length frames /\
   (frames <> [] -> 0.05 <= Rabs (boatSpeed (ticks islands frames w)))).
Proof.
  unfold ticks. induction frames as [|f rest IH]; intros w Hm Hf; simpl.
  - right. split; [lra | intros H; contradiction H; reflexivity].
  - destruct (updateBoat_input f.1 f.2 w) as [Ek Em].
    assert (Hm1 : modalOpen (updateBoat islands f.1 f.2 w) = false) by (rewrite Em; exact Hm).
    assert (Hf1 : forward (keys (updateBoat islands f.1 f.2 w)) = 0) by (rewrite Ek; exact Hf).
    destruct (IH _ Hm1 Hf1) as [E | [E Hbig]]; [left; exact E|].
    destruct (coast_tick f.1 f.2 w Hm Hf) as [E1 | [E1 Hb1]].
    + left. rewrite E, E1. lra.
    + right. split; [rewrite E, E1; lra|]. intros _.
      destruct rest as [|g rest']; [|apply Hbig; discriminate].
      simpl. rewrite E1. exact Hb1.
Qed.

End Coasting.

(** X22.  With the keys released the boat comes to a full stop, and in
    bounded time: with the modal closed and the forward axis at 0, after
    [n >= 1] ticks, whatever their [delta]s and whatever the islands,
    the speed is exactly 0 as soon as [|speed| * damping ^ n < 0.05] for
    the speed before the first of them. *)
Theorem coast_stops islands frames w :
  modalOpen w = false ->
  forward (keys w) = 0 ->
  frames <> [] ->
  Rabs (boatSpeed w) * damping ^ List.length frames < 0.05 ->
  boatSpeed (ticks islands frames w) = 0.
Proof.
  intros Hm Hf Hne Hsmall.
  destruct (coast_ticks islands frames w Hm Hf) as [E | [E Hbig]]; [exact E|].
  exfalso. specialize (Hbig Hne). rewrite E in Hbig.
  rewrite Rabs_mult in Hbig.
  rewrite (Rabs_right (damping ^ List.length frames)) in Hbig; [lra|].
  apply Rle_ge, pow_le. unfold damping. lra.
Qed.

Lemma coast_stops_witness :
  boatSpeed (ticks registry [(1, 0); (1, 1); (1, 2); (1, 3); (1, 4)] spent_world) = 0.
Proof.
  apply coast_stops.
  - reflexivity.
  - unfold forward, axis.
    rewrite (has_true "w"), (has_true "s")
      by (change (keys spent_world) with ({["w"; "s"]} : gset string); set_solver).
    simpl. lra.
  - discriminate.
  - simpl. unfold damping. rewrite Rabs_right by lra. lra.
Defined.
